(** * Repeated-bytes detection: a shallow embedding of [repeated_bytes.py]

    The development follows [src/azul_plugin_repeated_bytes/repeated_bytes.py]
    function by function.  Byte buffers are lists of bytes, Python slices are
    [firstn]/[skipn] with Python's clamping, [for] loops are fixpoints over the
    list of values the loop variable takes, and a Python exception is a value
    of the [outcome] monad.

    Modelling notes.
    - Lengths, widths and repeat counts are natural numbers: every integer the
      module computes comes from [len], [range], [bytes.find] or a quotient of
      two lengths, and is never negative.
    - [int(len(data) / n)] is Python's true division followed by truncation.
      For operands below 2^53 (any buffer that fits in memory) the correctly
      rounded quotient truncates to the floor quotient, which is what [Nat.div]
      computes; a zero divisor raises [ZeroDivisionError].
    - [bytes.find] returns -1 when there is no occurrence; here that is [None].
    - [data_repeats] returns a width, [None] or [-1]; here that is the tagged
      type [Result]. *)

From Stdlib Require Import List Arith PeanoNat Bool Lia Sorted.
From Stdlib Require Import Strings.Byte.
From Stdlib Require String QArith.
Import ListNotations.
Import String.StringSyntax.
Delimit Scope string_scope with string.

(** ** Outcomes of a Python call *)

Inductive exception : Type :=
| ZeroDivisionError.

(** [OutOfFuel] is not a Python value: it marks a model loop that hit its
    bound while the Python loop would still be running. *)
Inductive outcome (A : Type) : Type :=
| Ok (a : A)
| Raise (e : exception)
| OutOfFuel.

Arguments Ok {A} a.
Arguments Raise {A} e.
Arguments OutOfFuel {A}.

Definition bind {A B : Type} (c : outcome A) (k : A -> outcome B) : outcome B :=
  match c with
  | Ok a => k a
  | Raise e => Raise e
  | OutOfFuel => OutOfFuel
  end.

Notation "x <- c ;; k" := (bind c (fun x => k))
  (at level 61, c at next level, right associativity).

(** ** Python primitives on integers and byte strings *)

Definition bytes : Type := list byte.

(** [a % b] on non-negative integers. *)
Definition py_mod (a b : nat) : outcome nat :=
  if b =? 0 then Raise ZeroDivisionError else Ok (a mod b).

(** [int(a / b)] on non-negative integers. *)
Definition py_int_div (a b : nat) : outcome nat :=
  if b =? 0 then Raise ZeroDivisionError else Ok (a / b).

(** [a == b] on byte strings. *)
Fixpoint bytes_eqb (a b : bytes) : bool :=
  match a, b with
  | [], [] => true
  | x :: a', y :: b' => Byte.eqb x y && bytes_eqb a' b'
  | _, _ => false
  end.

(** [data[lo:hi]] for [0 <= lo] and [0 <= hi]; both ends clamp to the
    buffer. *)
Definition slice (data : bytes) (lo hi : nat) : bytes :=
  skipn lo (firstn hi data).

(** [data[:n]] for [0 <= n]. *)
Definition slice_to (data : bytes) (n : nat) : bytes := firstn n data.

(** [data[-r:]] for [r > 0]: the last [r] bytes, or everything when
    [r >= len(data)]. *)
Definition slice_last (data : bytes) (r : nat) : bytes :=
  skipn (length data - r) data.

(** [data[:-r]] for [r > 0]: all but the last [r] bytes. *)
Definition slice_drop_last (data : bytes) (r : nat) : bytes :=
  firstn (length data - r) data.

(** [range(lo, hi)]. *)
Definition range (lo hi : nat) : list nat := seq lo (hi - lo).

(** [range(hi, lo, -1)]: [hi], [hi - 1], ..., [lo + 1]. *)
Definition range_down (hi lo : nat) : list nat := rev (seq (S lo) (hi - lo)).

(** [data.find(pattern, start)]: the lowest index [i >= start] with
    [data[i : i + len(pattern)] == pattern] and [i + len(pattern) <= len(data)]. *)
Fixpoint find_scan (data pattern : bytes) (i positions : nat) : option nat :=
  match positions with
  | 0 => None
  | S positions' =>
      if bytes_eqb (slice data i (i + length pattern)) pattern
      then Some i
      else find_scan data pattern (S i) positions'
  end.

Definition find (data pattern : bytes) (start : nat) : option nat :=
  find_scan data pattern start (S (length data) - (start + length pattern)).

(** ** [pyprimesieve.factorize] *)

(** Divide [n] by [p] as often as it goes: the exponent of [p] in [n] and the
    cofactor that is left. *)
Fixpoint divide_out (fuel n p : nat) : nat * nat :=
  match fuel with
  | 0 => (0, n)
  | S fuel' =>
      if n mod p =? 0
      then let '(c, m) := divide_out fuel' (n / p) p in (S c, m)
      else (0, n)
  end.

(** Trial division by [p], [p + 1], ... *)
Fixpoint trial_division (fuel n p : nat) : list (nat * nat) :=
  match fuel with
  | 0 => []
  | S fuel' =>
      if n <=? 1 then []
      else
        match divide_out n n p with
        | (0, _) => trial_division fuel' n (S p)
        | (c, m) => (p, c) :: trial_division fuel' m (S p)
        end
  end.

(** Modelled from the spec: [pyprimesieve.factorize] belongs to an external
    package and is absent from the sources.  The spec asks for "the prime
    factorization of n (list of primes with multiplicity)" and notes that
    trial division is adequate.  [factorize n] lists the pairs
    (prime, exponent) in ascending order of the primes, and is empty for
    [n = 1]; [prime_factors_spec] below shows that the bounds of the two
    loops are never hit.  The module never factorizes 0 on a path that starts
    in [data_repeats]; the value chosen here for 0, the empty list, is used
    by no property below. *)
Definition factorize (n : nat) : list (nat * nat) := trial_division n n 2.

(** ** The module's constants *)

Definition SEARCH_BLOCK_SIZE : nat := 32.

(** The module-level default.  The command-line driver may rebind the global
    to [None] (its [--force] flag); [data_repeats_with_limit] takes the value
    of the global as an argument. *)
Definition MAXIMUM_WIDTH_ATTEMPTS : option nat := Some 1024.

(** ** [data_repeats_exactly_n_times] *)

(** The body of [for i in range(1, n)]. *)
Fixpoint compare_chunks (data : bytes) (chunksize : nat) (indices : list nat) : bool :=
  match indices with
  | [] => true
  | i :: rest =>
      if negb (bytes_eqb (slice_to data chunksize)
                         (slice data (chunksize * i) (chunksize * (i + 1))))
      then false
      else compare_chunks data chunksize rest
  end.

Definition data_repeats_exactly_n_times (data : bytes) (n : nat) : outcome bool :=
  m <- py_mod (length data) n ;;
  if negb (m =? 0) then Ok false
  else
    chunksize <- py_int_div (length data) n ;;
    Ok (compare_chunks data chunksize (range 1 n)).

(** ** [data_repeats_exactly_n_times_recursive] *)

(** [prime_factors.extend([p] * c)] for every pair of the factorization. *)
Definition prime_factors (n : nat) : list nat :=
  flat_map (fun pc => repeat (fst pc) (snd pc)) (factorize n).

(** The body of [for prime_factor in prime_factors], threading [data]. *)
Fixpoint break_down (data : bytes) (factors : list nat) : outcome bool :=
  match factors with
  | [] => Ok true
  | prime_factor :: rest =>
      ok <- data_repeats_exactly_n_times data prime_factor ;;
      if negb ok then Ok false
      else
        chunk_size <- py_int_div (length data) prime_factor ;;
        break_down (slice_to data chunk_size) rest
  end.

Definition data_repeats_exactly_n_times_recursive (data : bytes) (n : nat) : outcome bool :=
  break_down data (prime_factors n).

(** ** [data_repeats_with_width] *)

Definition data_repeats_with_width (data : bytes) (width : nat) : outcome bool :=
  num_full_repeats <- py_int_div (length data) width ;;
  remainder <- py_mod (length data) width ;;
  if negb (remainder =? 0) then
    if negb (bytes_eqb (slice_to data remainder) (slice_last data remainder))
    then Ok false
    else data_repeats_exactly_n_times_recursive (slice_drop_last data remainder) num_full_repeats
  else data_repeats_exactly_n_times_recursive data num_full_repeats.

(** ** [find_possible_repeat_widths] *)

(** The [while True] loop of the generator; the list holds the offsets in the
    order they are yielded.  The loop leaves by [break] when [find] fails. *)
Fixpoint find_next_offsets (fuel : nat) (data pattern : bytes) (offset : nat)
  : outcome (list nat) :=
  match fuel with
  | 0 => OutOfFuel
  | S fuel' =>
      match find data pattern (offset + 1) with
      | None => Ok []
      | Some offset' =>
          rest <- find_next_offsets fuel' data pattern offset' ;;
          Ok (offset' :: rest)
      end
  end.

Definition find_possible_repeat_widths (data : bytes) : outcome (list nat) :=
  find_next_offsets (S (length data)) data (slice_to data SEARCH_BLOCK_SIZE) 0.

(** ** [check_for_minimal_repeat_at_end] *)

Fixpoint scan_remainder_sizes (data : bytes) (sizes : list nat) : option nat :=
  match sizes with
  | [] => None
  | remainder_size :: rest =>
      if length data <=? remainder_size then scan_remainder_sizes data rest
      else if bytes_eqb (slice_last data remainder_size) (slice_to data remainder_size)
      then Some (length data - remainder_size)
      else scan_remainder_sizes data rest
  end.

Definition check_for_minimal_repeat_at_end (data : bytes) : option nat :=
  scan_remainder_sizes data (range_down (SEARCH_BLOCK_SIZE - 1) 0).

(** ** [data_repeats] *)

Inductive Result : Type :=
| Found (width : nat)
| NotFound
| Aborted.

(** [attempts == MAXIMUM_WIDTH_ATTEMPTS]; an integer never equals [None]. *)
Definition attempts_reached (attempts : nat) (limit : option nat) : bool :=
  match limit with
  | Some m => attempts =? m
  | None => false
  end.

(** The brute-force loop [for offset in range(1, len(data))]: [Some] is the
    [return offset] inside the loop, [None] is falling out of the loop. *)
Fixpoint brute_force (data : bytes) (offsets : list nat) : outcome (option nat) :=
  match offsets with
  | [] => Ok None
  | offset :: rest =>
      ok <- data_repeats_with_width data offset ;;
      if ok then Ok (Some offset) else brute_force data rest
  end.

(** The loop over the generator's offsets, threading [attempts]: [Some] is a
    [return] inside the loop, [None] is the generator running dry. *)
Fixpoint generator_search (limit : option nat) (data : bytes)
         (offsets : list nat) (attempts : nat) : outcome (option Result) :=
  match offsets with
  | [] => Ok None
  | offset :: rest =>
      ok <- data_repeats_with_width data offset ;;
      if ok then Ok (Some (Found offset))
      else
        let attempts' := attempts + 1 in
        if attempts_reached attempts' limit then Ok (Some Aborted)
        else generator_search limit data rest attempts'
  end.

(** The last lines of [data_repeats]; [if width:] is false for [None] and
    for [0]. *)
Definition tail_fallback (data : bytes) : Result :=
  match check_for_minimal_repeat_at_end data with
  | Some width => if width =? 0 then NotFound else Found width
  | None => NotFound
  end.

Definition data_repeats_with_limit (limit : option nat) (data : bytes) : outcome Result :=
  if length data <? 2 then Ok NotFound
  else if length data <=? SEARCH_BLOCK_SIZE then
    hit <- brute_force data (range 1 (length data)) ;;
    match hit with
    | Some offset => Ok (Found offset)
    | None => Ok NotFound
    end
  else
    offsets <- find_possible_repeat_widths data ;;
    hit <- generator_search limit data offsets 0 ;;
    match hit with
    | Some result => Ok result
    | None => Ok (tail_fallback data)
    end.

Definition data_repeats (data : bytes) : outcome Result :=
  data_repeats_with_limit MAXIMUM_WIDTH_ATTEMPTS data.

(** * The plugin: [main.py]

    [execute] reads the sample, calls [data_repeats] and reports through the
    plugin object.  The two reporting calls it makes,
    [self.add_child_with_data] and [self.add_many_feature_values], are kept as
    a list of calls in the order they are made; the value it returns is kept
    beside them.

    - A Python [str] of ASCII characters is a [String.string].
    - A Python [float] is the rational it is nearest to: [len / width] is
      correctly rounded and 1.25 is a float, so for widths below 2^51 the
      comparison [repeat_ratio < MIN_RATIO] has the outcome of the comparison
      of the rationals.
    - [len(sample_data) - width] is a subtraction of natural numbers; the
      width returned by [data_repeats] never exceeds the length. *)

(** ** Python primitives used by the plugin *)

Inductive value : Type :=
| VInt (n : nat)
| VFloat (q : QArith_base.Q)
| VStr (s : String.string).

(** A [dict] with string keys, in insertion order. *)
Definition dict : Type := list (String.string * value).

(** [d.get(key)]. *)
Fixpoint dict_get (d : dict) (key : String.string) : option value :=
  match d with
  | [] => None
  | (k, v) :: rest => if String.eqb k key then Some v else dict_get rest key
  end.

(** [d[key] = v]: replaces the value of an existing key, appends a new key. *)
Fixpoint dict_set (d : dict) (key : String.string) (v : value) : dict :=
  match d with
  | [] => [(key, v)]
  | (k, x) :: rest =>
      if String.eqb k key then (k, v) :: rest else (k, x) :: dict_set rest key v
  end.

(** [a / b] on non-negative integers.  Python returns the double nearest to
    the quotient; the model keeps the quotient itself, which stands for that
    double.  The two differ as values (100 / 3 is not a double), so nothing
    below is stated about the value of a ratio, only about its comparison
    with [MIN_RATIO]. *)
Definition py_true_div (a b : nat) : outcome QArith_base.Q :=
  if b =? 0 then Raise ZeroDivisionError
  else Ok (QArith_base.Qmake (BinInt.Z.of_nat a) (BinPos.Pos.of_nat b)).

(** [x < y] on floats. *)
Definition float_lt (x y : QArith_base.Q) : bool :=
  negb (QArith_base.Qle_bool y x).

(** [s[lo:hi]] on a [str], for [0 <= lo] and [0 <= hi]. *)
Definition str_slice (s : String.string) (lo hi : nat) : String.string :=
  String.substring lo (hi - lo) s.

(** The sixteen characters of [Py_hexdigits]. *)
Definition hexdigit (n : nat) : byte :=
  nth n [x30; x31; x32; x33; x34; x35; x36; x37; x38; x39;
         x61; x62; x63; x64; x65; x66] x30.

(** The quote [repr] picks for a bytes object: the single quote, unless the
    bytes hold a single quote and no double quote. *)
Definition repr_quote (data : bytes) : byte :=
  if existsb (Byte.eqb x27) data && negb (existsb (Byte.eqb x22) data)
  then x22 else x27.

(** The characters [repr] writes for one byte. *)
Definition repr_byte (quote c : byte) : list byte :=
  if Byte.eqb c quote || Byte.eqb c x5c then [x5c; c]
  else if Byte.eqb c x09 then [x5c; x74]
  else if Byte.eqb c x0a then [x5c; x6e]
  else if Byte.eqb c x0d then [x5c; x72]
  else if (Byte.to_nat c <? 32) || (127 <=? Byte.to_nat c)
  then [x5c; x78; hexdigit (Byte.to_nat c / 16); hexdigit (Byte.to_nat c mod 16)]
  else [c].

(** [repr(data)] for a bytes object: [b], the quote, the escaped bytes, the
    quote. *)
Definition repr (data : bytes) : String.string :=
  String.string_of_list_byte
    (x62 :: repr_quote data :: flat_map (repr_byte (repr_quote data)) data
         ++ [repr_quote data]).

(** ** The plugin's constants *)

Definition MIN_BYTES_REPEATED : nat := 64.

(** 1.25, as the fraction 5/4. *)
Definition MIN_RATIO : QArith_base.Q :=
  QArith_base.Qmake (BinInt.Z.of_nat 5) (BinPos.Pos.of_nat 4).

Definition MAX_STRING_FEATURE_SIZE : nat := 32.

(** ** [AzulPluginRepeatedBytes.execute] *)

Inductive call : Type :=
| add_child_with_data (relationship : dict) (data : bytes)
| add_many_feature_values (features : dict).

Inductive returned : Type :=
| ReturnNone
| ReturnDict (d : dict).

(** The truth value of what [data_repeats] returned: [None] and 0 are false,
    every other integer, -1 included, is true. *)
Definition truthy (width : Result) : bool :=
  match width with
  | Found w => negb (w =? 0)
  | NotFound => false
  | Aborted => true
  end.

Definition execute (sample_data : bytes) : outcome (returned * list call) :=
  width <- data_repeats sample_data ;;
  if negb (truthy width) then Ok (ReturnNone, [])
  else
    match width with
    | Aborted => Ok (ReturnNone, [])
    | NotFound => Ok (ReturnNone, [])
    | Found width =>
        let num_repeated_bytes := length sample_data - width in
        repeat_ratio <- py_true_div (length sample_data) width ;;
        if float_lt repeat_ratio MIN_RATIO || (num_repeated_bytes <? MIN_BYTES_REPEATED)
        then Ok (ReturnDict [], [])
        else
          let features :=
            [("rep_byte_data_size", VInt width);
             ("rep_byte_excess_size", VInt num_repeated_bytes);
             ("rep_byte_ratio", VFloat repeat_ratio);
             ("tag", VStr "repeated_bytes")]%string in
          let deduplicated := slice_to sample_data width in
          if length deduplicated <=? MAX_STRING_FEATURE_SIZE then
            let text := repr deduplicated in
            let features :=
              dict_set features "rep_byte_data"%string
                       (VStr (str_slice text 2 (String.length text - 1))) in
            Ok (ReturnNone, [add_many_feature_values features])
          else
            Ok (ReturnNone,
                [add_child_with_data [("label", VStr "deduplicated")]%string deduplicated;
                 add_many_feature_values features])
    end.

(** ** Sample buffers *)

(** [bytes(range(n))], for [n <= 256]. *)
Definition bytes_of_range (n : nat) : bytes :=
  map (fun i => match Byte.of_nat i with Some b => b | None => x00 end) (seq 0 n).

(** The bytes 0, 1, ..., 31 followed by 0: one copy of a 32-byte block and
    the first byte of the next copy. *)
Definition block32_plus_one : bytes := bytes_of_range 32 ++ [x00].

(** The bytes 0, 1, ..., 32 followed by 0. *)
Definition block33_plus_one : bytes := bytes_of_range 33 ++ [x00].

(** The buffer the unit tests build from a block:
    [bytes(data[i % len(data)] for i in range(full_size))], for a non-empty
    block (the default byte is never used then). *)
Definition cycle_bytes (core_data : bytes) (full_size : nat) : bytes :=
  map (fun i => nth (i mod length core_data) core_data x00) (range 0 full_size).

(** The bytes 0, 1, ..., 32 cycled to 100 bytes: three copies of a 33-byte
    block and the first byte of a fourth. *)
Definition block33_cycled : bytes := cycle_bytes (bytes_of_range 33) 100.

(** Thirty-three bytes [A] and one byte [B], twice: the anchor block occurs
    again at offset 1, where the buffer does not repeat, and at offset 34,
    where it does. *)
Definition run_and_break_twice : bytes :=
  (repeat x41 33 ++ [x42]) ++ (repeat x41 33 ++ [x42]).

(** * Specification vocabulary *)

(** [decides c P]: the call [c] returns a boolean, without raising, and the
    boolean is [true] exactly when [P] holds. *)
Definition decides (c : outcome bool) (P : Prop) : Prop :=
  exists b, c = Ok b /\ (b = true <-> P).

(** [periodic w data]: the buffer repeats after its first [w] bytes. *)
Definition periodic (w : nat) (data : bytes) : Prop :=
  forall i, i + w < length data -> nth_error data i = nth_error data (i + w).

(** [repeats_n data n]: the buffer is [n] copies of one block. *)
Definition repeats_n (data : bytes) (n : nat) : Prop :=
  exists c, length data = n * c /\ periodic c data.

(** The product of a list of factors. *)
Definition product (l : list nat) : nat := fold_right Nat.mul 1 l.

(** [prime_factors.extend([p] * c)] over a list of pairs. *)
Definition expand (pairs : list (nat * nat)) : list nat :=
  flat_map (fun pc => repeat (fst pc) (snd pc)) pairs.

(** [p] is at least 2 and has no divisor strictly between 1 and [p]. *)
Definition is_prime (p : nat) : Prop :=
  2 <= p /\ forall d, 2 <= d < p -> ~ Nat.divide d p.

(** The test [find] makes at position [o]. *)
Definition anchored (data pattern : bytes) (o : nat) : bool :=
  bytes_eqb (slice data o (o + length pattern)) pattern.

(** The offsets the generator yields: the anchored positions from 1 on. *)
Definition anchor_offsets (data pattern : bytes) (offset : nat) : list nat :=
  filter (anchored data pattern) (seq (S offset) (length data - length pattern - offset)).

(** The width check returns [True] at width [w]. *)
Definition repeats_at (data : bytes) (w : nat) : Prop :=
  data_repeats_with_width data w = Ok true.

(** The width check returns [False] at width [w]. *)
Definition fails_at (data : bytes) (w : nat) : Prop :=
  data_repeats_with_width data w = Ok false.

(** The widths [data_repeats] hands to the width check. *)
Definition in_bounds (data : bytes) (w : nat) : Prop := 1 <= w <= length data.

(** The generator yields every width, from the anchor size on, at which the
    buffer repeats. *)
Definition yields_every_repeating_width (data : bytes) : Prop :=
  forall offsets W,
    find_possible_repeat_widths data = Ok offsets ->
    SEARCH_BLOCK_SIZE <= W ->
    data_repeats_with_width data W = Ok true ->
    In W offsets.

(** The value of a hexadecimal digit, [0]-[9] or [a]-[f]. *)
Definition hex_value (c : byte) : nat :=
  if Byte.to_nat c <? 58 then Byte.to_nat c - 48 else Byte.to_nat c - 87.

(** Reads back the escapes that [repr] writes: [\t], [\n], [\r], [\xHH], and
    a backslash before any other character stands for that character. *)
Fixpoint unescape (text : list byte) : bytes :=
  match text with
  | [] => []
  | c :: rest =>
      if Byte.eqb c x5c then
        match rest with
        | [] => []
        | e :: rest' =>
            if Byte.eqb e x78 then
              match rest' with
              | h :: l :: rest'' =>
                  match Byte.of_nat (16 * hex_value h + hex_value l) with
                  | Some b => b :: unescape rest''
                  | None => []
                  end
              | _ => []
              end
            else if Byte.eqb e x74 then x09 :: unescape rest'
            else if Byte.eqb e x6e then x0a :: unescape rest'
            else if Byte.eqb e x72 then x0d :: unescape rest'
            else e :: unescape rest'
        end
      else c :: unescape rest
  end.

(** A printable ASCII character: space to tilde. *)
Definition printable (c : byte) : bool :=
  (32 <=? Byte.to_nat c) && (Byte.to_nat c <? 127).

(** The four features [execute] always sets when it reports. *)
Definition base_features (sample_data : bytes) (width : nat) : dict :=
  [("rep_byte_data_size", VInt width);
   ("rep_byte_excess_size", VInt (length sample_data - width));
   ("rep_byte_ratio",
    VFloat (QArith_base.Qmake (BinInt.Z.of_nat (length sample_data))
                              (BinPos.Pos.of_nat width)));
   ("tag", VStr "repeated_bytes")]%string.

(** The string feature: [repr(deduplicated)[2:-1]]. *)
Definition preview (deduplicated : bytes) : String.string :=
  str_slice (repr deduplicated) 2 (String.length (repr deduplicated) - 1).

(** * Properties *)

(** ** The examples of the docstrings and of the spec *)

Example docstring_width_example :
  data_repeats_with_width
    [x41; x42; x43; x44; x45; x46; x47; x48; x41; x42; x43; x44] 8 = Ok true.
Proof. reflexivity. Qed.

Example docstring_recursive_example :
  prime_factors 12 = [2; 2; 3] /\
  data_repeats_exactly_n_times_recursive (concat (repeat [x41; x42] 12)) 12 = Ok true.
Proof. split; reflexivity. Qed.

Example single_byte_119_times :
  data_repeats (repeat x00 119) = Ok (Found 1).
Proof. vm_compute. reflexivity. Qed.

Example three_byte_pattern_41_times :
  data_repeats (concat (repeat [x01; x02; x03] 41)) = Ok (Found 3).
Proof. vm_compute. reflexivity. Qed.

Example ascending_bytes_do_not_repeat :
  data_repeats (bytes_of_range 32) = Ok NotFound /\
  data_repeats (bytes_of_range 64) = Ok NotFound.
Proof. split; vm_compute; reflexivity. Qed.

(** ** Outcomes that decide a proposition *)

Lemma decides_iff (c : outcome bool) (P Q : Prop) :
  (P <-> Q) -> decides c P -> decides c Q.
Proof.
  intros HPQ [b [Hc Hb]]. exists b. split; [exact Hc | tauto].
Qed.

Lemma decides_same (c1 c2 : outcome bool) (P : Prop) :
  decides c1 P -> decides c2 P -> c1 = c2.
Proof.
  intros [b1 [H1 E1]] [b2 [H2 E2]]. subst c1 c2. f_equal.
  destruct b1, b2; try reflexivity.
  - symmetry. apply E2, E1. reflexivity.
  - apply E1, E2. reflexivity.
Qed.

Lemma decides_true (c : outcome bool) (P : Prop) :
  decides c P -> (c = Ok true <-> P).
Proof.
  intros [b [Hc Hb]]. subst c. split.
  - intros E. apply Hb. congruence.
  - intros HP. f_equal. apply Hb, HP.
Qed.

Lemma decides_false (c : outcome bool) (P : Prop) :
  decides c P -> (c = Ok false <-> ~ P).
Proof.
  intros [b [Hc Hb]]. subst c. split.
  - intros E HP. apply Hb in HP. congruence.
  - intros HN. f_equal. destruct b; [ | reflexivity]. exfalso. apply HN, Hb. reflexivity.
Qed.

(** ** Byte strings and slices *)

Lemma bytes_eqb_eq (a b : bytes) : bytes_eqb a b = true <-> a = b.
Proof.
  revert b. induction a as [ | x a IH]; intros [ | y b]; simpl; split;
    try discriminate; try reflexivity.
  - rewrite andb_true_iff. intros [Hx Hab].
    apply byte_dec_bl in Hx. apply IH in Hab. congruence.
  - intros E. injection E as -> ->. rewrite andb_true_iff. split.
    + apply byte_dec_lb. reflexivity.
    + apply IH. reflexivity.
Qed.

Lemma bytes_eqb_neq (a b : bytes) : bytes_eqb a b = false <-> a <> b.
Proof.
  rewrite <- bytes_eqb_eq. destruct (bytes_eqb a b); split; congruence.
Qed.

Lemma nth_error_slice (data : bytes) (lo hi i : nat) :
  nth_error (slice data lo hi) i =
  if lo + i <? hi then nth_error data (lo + i) else None.
Proof.
  unfold slice. rewrite nth_error_skipn, nth_error_firstn. reflexivity.
Qed.

Lemma length_slice (data : bytes) (lo hi : nat) :
  length (slice data lo hi) = Nat.min hi (length data) - lo.
Proof.
  unfold slice. rewrite length_skipn, length_firstn. reflexivity.
Qed.

(** Two buffers of a known common length are equal when they agree below it. *)
Lemma bytes_ext (a b : bytes) (n : nat) :
  length a = n -> length b = n ->
  (forall i, i < n -> nth_error a i = nth_error b i) -> a = b.
Proof.
  intros Ha Hb H. apply nth_error_ext. intros i.
  destruct (Nat.lt_ge_cases i n) as [Hi | Hi].
  - apply H, Hi.
  - transitivity (@None byte).
    + apply nth_error_None. lia.
    + symmetry. apply nth_error_None. lia.
Qed.

(** ** Periods *)

Lemma periodic_mul (w : nat) (data : bytes) :
  periodic w data ->
  forall k i, i + k * w < length data -> nth_error data i = nth_error data (i + k * w).
Proof.
  intros Hp k. induction k as [ | k IH]; intros i Hi.
  - f_equal. lia.
  - rewrite (IH i) by lia.
    replace (i + S k * w) with (i + k * w + w) by lia.
    apply Hp. lia.
Qed.

Lemma periodic_firstn (w n : nat) (data : bytes) :
  periodic w data -> periodic w (firstn n data).
Proof.
  intros Hp i Hi. rewrite length_firstn in Hi.
  rewrite !nth_error_firstn.
  destruct (Nat.ltb_spec i n), (Nat.ltb_spec (i + w) n); try lia.
  apply Hp. lia.
Qed.

Lemma periodic_ge (w : nat) (data : bytes) :
  length data <= w -> periodic w data.
Proof. intros H i Hi. lia. Qed.

Lemma periodic_zero (data : bytes) : periodic 0 data.
Proof. intros i _. f_equal. lia. Qed.

Lemma periodic_mod (c : nat) (data : bytes) :
  0 < c -> periodic c data ->
  forall i, i < length data -> nth_error data i = nth_error data (i mod c).
Proof.
  intros Hc Hp i Hi.
  pose proof (Nat.div_mod_eq i c) as E.
  rewrite (periodic_mul c data Hp (i / c) (i mod c)) by nia.
  f_equal. nia.
Qed.

Lemma mod_periodic (c : nat) (data : bytes) :
  0 < c ->
  (forall i, i < length data -> nth_error data i = nth_error data (i mod c)) ->
  periodic c data.
Proof.
  intros Hc H i Hi.
  rewrite (H (i + c)) by lia. rewrite (H i) by lia.
  f_equal. replace (i + c) with (i + 1 * c) by lia.
  symmetry. apply Nat.Div0.mod_add.
Qed.

(** A period [c] inside the first [m * c] bytes together with a period
    [m * c] of the whole buffer is a period [c] of the whole buffer. *)
Lemma periodic_refine (c m : nat) (data : bytes) :
  0 < c -> 0 < m ->
  periodic (m * c) data ->
  periodic c (firstn (m * c) data) ->
  periodic c data.
Proof.
  intros Hc Hm HL Hin. apply mod_periodic; [exact Hc | ]. intros i Hi.
  assert (HmL : 0 < m * c) by nia.
  pose proof (Nat.mod_upper_bound i (m * c) ltac:(lia)) as Hb.
  pose proof (Nat.Div0.mod_le i (m * c)) as Hle.
  rewrite (periodic_mod (m * c) data HmL HL i Hi).
  assert (Hj : i mod (m * c) < length (firstn (m * c) data)).
  { rewrite length_firstn. lia. }
  pose proof (periodic_mod c _ Hc Hin _ Hj) as E.
  rewrite !nth_error_firstn in E.
  pose proof (Nat.mod_upper_bound (i mod (m * c)) c ltac:(lia)) as Hb'.
  destruct (Nat.ltb_spec (i mod (m * c)) (m * c)); [ | lia].
  destruct (Nat.ltb_spec ((i mod (m * c)) mod c) (m * c)); [ | nia].
  rewrite E. f_equal.
  rewrite (Nat.mul_comm m c), Nat.Div0.mod_mul_r.
  rewrite (Nat.mul_comm c), Nat.Div0.mod_add. apply Nat.Div0.mod_mod.
Qed.

(** ** The exact-repeat validator *)

Lemma compare_chunks_true (data : bytes) (c : nat) (indices : list nat) :
  compare_chunks data c indices = true <->
  Forall (fun i => slice_to data c = slice data (c * i) (c * (i + 1))) indices.
Proof.
  induction indices as [ | i rest IH]; simpl.
  - split; [constructor | reflexivity].
  - destruct (bytes_eqb _ _) eqn:E; simpl.
    + apply bytes_eqb_eq in E. rewrite IH. split.
      * intros H. constructor; assumption.
      * intros H. inversion H; assumption.
    + apply bytes_eqb_neq in E. split; [discriminate | ].
      intros H. inversion H; contradiction.
Qed.

Lemma chunk_eq_iff (data : bytes) (c i : nat) :
  c * (i + 1) <= length data ->
  slice_to data c = slice data (c * i) (c * (i + 1)) <->
  forall j, j < c -> nth_error data j = nth_error data (c * i + j).
Proof.
  intros Hlen. unfold slice_to. split.
  - intros E j Hj.
    assert (E' : nth_error (firstn c data) j =
                 nth_error (slice data (c * i) (c * (i + 1))) j) by (rewrite E; reflexivity).
    rewrite nth_error_firstn, nth_error_slice in E'.
    destruct (Nat.ltb_spec j c); [ | lia].
    destruct (Nat.ltb_spec (c * i + j) (c * (i + 1))); [ | lia].
    exact E'.
  - intros H. apply (bytes_ext _ _ c).
    + rewrite length_firstn. nia.
    + rewrite length_slice. nia.
    + intros j Hj. rewrite nth_error_firstn, nth_error_slice.
      destruct (Nat.ltb_spec j c); [ | lia].
      destruct (Nat.ltb_spec (c * i + j) (c * (i + 1))); [ | lia].
      apply H, Hj.
Qed.

Lemma in_range (lo hi i : nat) : In i (range lo hi) <-> lo <= i < hi.
Proof. unfold range. rewrite in_seq. lia. Qed.

Lemma chunks_periodic (data : bytes) (n c : nat) :
  length data = n * c ->
  Forall (fun i => slice_to data c = slice data (c * i) (c * (i + 1))) (range 1 n) <->
  periodic c data.
Proof.
  intros Hlen. rewrite Forall_forall. split.
  - intros H. destruct (Nat.eq_0_gt_0_cases c) as [-> | Hc]; [apply periodic_zero | ].
    apply mod_periodic; [exact Hc | ]. intros k Hk.
    pose proof (Nat.div_mod_eq k c) as E.
    pose proof (Nat.mod_upper_bound k c ltac:(lia)) as Hb.
    destruct (Nat.eq_0_gt_0_cases (k / c)) as [Hq | Hq].
    + f_equal. rewrite Hq in E. lia.
    + assert (Hqn : k / c < n) by (apply Nat.Div0.div_lt_upper_bound; lia).
      assert (Hin : In (k / c) (range 1 n)) by (apply in_range; lia).
      apply H in Hin.
      assert (Hfit : c * (k / c + 1) <= length data).
      { rewrite Hlen, (Nat.mul_comm n c). apply Nat.mul_le_mono_l. lia. }
      rewrite (proj1 (chunk_eq_iff data c (k / c) Hfit) Hin (k mod c) Hb).
      f_equal. lia.
  - intros Hp i Hi. apply in_range in Hi. apply chunk_eq_iff; [nia | ].
    intros j Hj. rewrite (periodic_mul c data Hp i j) by nia.
    f_equal. lia.
Qed.

Lemma py_mod_pos (a b : nat) : 1 <= b -> py_mod a b = Ok (a mod b).
Proof. intros H. unfold py_mod. destruct (Nat.eqb_spec b 0); [lia | reflexivity]. Qed.

Lemma py_int_div_pos (a b : nat) : 1 <= b -> py_int_div a b = Ok (a / b).
Proof. intros H. unfold py_int_div. destruct (Nat.eqb_spec b 0); [lia | reflexivity]. Qed.

(** For [n >= 1] the naive validator returns, and says whether the buffer is
    [n] copies of one block. *)
Lemma data_repeats_exactly_n_times_spec (data : bytes) (n : nat) :
  1 <= n -> decides (data_repeats_exactly_n_times data n) (repeats_n data n).
Proof.
  intros Hn. unfold data_repeats_exactly_n_times.
  rewrite py_mod_pos by exact Hn. simpl.
  destruct (Nat.eqb_spec (length data mod n) 0) as [Hm | Hm]; simpl.
  - rewrite py_int_div_pos by exact Hn. simpl.
    assert (Hlen : length data = n * (length data / n)).
    { apply Nat.Div0.div_exact. exact Hm. }
    eexists. split; [reflexivity | ].
    rewrite compare_chunks_true, (chunks_periodic data n _ Hlen).
    split.
    + intros Hp. exists (length data / n). split; assumption.
    + intros [c [Hc Hp]].
      assert (c = length data / n) as <-; [ | exact Hp].
      rewrite Hc, Nat.mul_comm, Nat.div_mul by lia. reflexivity.
  - exists false. split; [reflexivity | ]. split; [discriminate | ].
    intros [c [Hc _]]. exfalso. apply Hm.
    rewrite Hc, Nat.mul_comm. apply Nat.Div0.mod_mul.
Qed.

(** A buffer is [p * m] copies of a block exactly when it is [p] copies of a
    block that is itself [m] copies of a block. *)
Lemma repeats_n_mul (data : bytes) (p m : nat) :
  1 <= p -> 1 <= m ->
  repeats_n data (p * m) <->
  repeats_n data p /\ repeats_n (slice_to data (length data / p)) m.
Proof.
  intros Hp Hm. unfold slice_to. split.
  - intros [c [Hlen Hper]].
    assert (Hdiv : length data / p = m * c).
    { rewrite Hlen, <- Nat.mul_assoc, Nat.mul_comm, Nat.div_mul by lia. reflexivity. }
    split.
    + exists (m * c). split; [lia | ].
      intros i Hi. apply (periodic_mul c data Hper m i Hi).
    + exists c. split.
      * rewrite length_firstn, Hdiv. nia.
      * apply periodic_firstn, Hper.
  - intros [[l [Hlen Hper]] [c [Hlen' Hper']]].
    assert (Hdiv : length data / p = l).
    { rewrite Hlen, Nat.mul_comm, Nat.div_mul by lia. reflexivity. }
    rewrite Hdiv in *. rewrite length_firstn in Hlen'.
    assert (Hl : l = m * c) by nia.
    exists c. split; [nia | ].
    destruct (Nat.eq_0_gt_0_cases c) as [-> | Hc]; [apply periodic_zero | ].
    apply (periodic_refine c m); try lia; rewrite <- Hl; assumption.
Qed.

(** ** The factorization *)

Lemma product_app (l1 l2 : list nat) : product (l1 ++ l2) = product l1 * product l2.
Proof.
  induction l1 as [ | x l1 IH]; simpl.
  - lia.
  - rewrite IH. lia.
Qed.

Lemma product_repeat (p c : nat) : product (repeat p c) = p ^ c.
Proof.
  induction c as [ | c IH]; simpl.
  - reflexivity.
  - rewrite IH. reflexivity.
Qed.

Lemma product_pos (l : list nat) : Forall (fun p => 1 <= p) l -> 1 <= product l.
Proof.
  induction 1 as [ | x l Hx _ IH]; simpl; nia.
Qed.

Lemma divide_out_spec (fuel n p : nat) :
  2 <= p -> 1 <= n -> n <= fuel ->
  let (c, m) := divide_out fuel n p in
  n = p ^ c * m /\ 1 <= m /\ ~ Nat.divide p m.
Proof.
  intros Hp. revert n. induction fuel as [ | fuel IH]; intros n Hn Hfuel; [lia | ].
  simpl. destruct (Nat.eqb_spec (n mod p) 0) as [Hm | Hm].
  - pose proof (Nat.div_mod_eq n p) as E. rewrite Hm, Nat.add_0_r in E.
    assert (Hq : 1 <= n / p) by nia.
    specialize (IH (n / p) Hq ltac:(nia)).
    destruct (divide_out fuel (n / p) p) as [c m].
    destruct IH as [E' [Hm1 Hnd]]. repeat split; try assumption.
    simpl. rewrite <- Nat.mul_assoc, <- E'. exact E.
  - repeat split; [simpl; lia | exact Hn | ].
    intros Hd. apply Hm. apply Nat.Lcm0.mod_divide. exact Hd.
Qed.

Lemma trial_division_spec (fuel n p : nat) :
  2 <= p -> 1 <= n ->
  n <= 1 \/ n + 1 <= fuel + p ->
  (forall d, 2 <= d < p -> ~ Nat.divide d n) ->
  product (expand (trial_division fuel n p)) = n /\
  Forall is_prime (expand (trial_division fuel n p)).
Proof.
  revert n p. induction fuel as [ | fuel IH]; intros n p Hp Hn Hfuel Hsmall.
  - simpl. split; [ | constructor].
    destruct (Nat.le_gt_cases n 1) as [H1 | H1]; [lia | ].
    exfalso. apply (Hsmall n); [lia | apply Nat.divide_refl].
  - simpl. destruct (Nat.leb_spec n 1) as [H1 | H1].
    + simpl. split; [lia | constructor].
    + pose proof (divide_out_spec n n p Hp Hn (Nat.le_refl n)) as Hdo.
      destruct (divide_out n n p) as [c m]. destruct Hdo as [E [Hm1 Hnd]].
      destruct c as [ | c].
      * (* [p] does not divide [n]: try the next candidate *)
        simpl in E. rewrite Nat.add_0_r in E. subst m.
        apply IH; try lia.
        intros d Hd Hdiv. destruct (Nat.eq_dec d p) as [-> | Hne].
        -- contradiction.
        -- apply (Hsmall d); [lia | exact Hdiv].
      * (* [p] divides [n] exactly [S c] times *)
        assert (Hlt : m < n).
        { assert (Hpow : 1 <= p ^ c) by (apply Nat.neq_0_lt_0, Nat.pow_nonzero; lia).
          assert (Hpk : 2 <= p * p ^ c) by nia.
          assert (E2 : n = (p * p ^ c) * m) by exact E.
          clear - Hpk E2 Hm1. nia. }
        assert (Hsmall' : forall d, 2 <= d < S p -> ~ Nat.divide d m).
        { intros d Hd Hdiv. destruct (Nat.eq_dec d p) as [-> | Hne]; [contradiction | ].
          apply (Hsmall d); [lia | ]. rewrite E. apply Nat.divide_mul_r, Hdiv. }
        destruct (IH m (S p) ltac:(lia) Hm1 ltac:(lia) Hsmall') as [Hprod Hprime].
        change (expand ((p, S c) :: trial_division fuel m (S p)))
          with (repeat p (S c) ++ expand (trial_division fuel m (S p))).
        split.
        -- rewrite product_app, product_repeat, Hprod. symmetry. exact E.
        -- apply Forall_app. split; [ | exact Hprime].
           apply Forall_forall. intros x Hx. apply repeat_spec in Hx. subst x.
           split; [exact Hp | ]. intros d Hd Hdiv. apply (Hsmall d Hd).
           apply (Nat.divide_trans _ p); [exact Hdiv | ].
           rewrite E. simpl. rewrite <- Nat.mul_assoc. apply Nat.divide_factor_l.
Qed.

(** The factor list of [n >= 1] multiplies back to [n] and holds primes only. *)
Lemma prime_factors_spec (n : nat) :
  1 <= n ->
  product (prime_factors n) = n /\ Forall is_prime (prime_factors n).
Proof.
  intros Hn. unfold prime_factors, factorize.
  apply (trial_division_spec n n 2); try lia.
Qed.

Lemma is_prime_pos (l : list nat) : Forall is_prime l -> Forall (fun p => 1 <= p) l.
Proof.
  apply Forall_impl. intros p [Hp _]. lia.
Qed.

(** ** The factorized validator *)

Lemma repeats_n_one (data : bytes) : repeats_n data 1.
Proof.
  exists (length data). split; [lia | ]. apply periodic_ge. lia.
Qed.

Lemma break_down_spec (factors : list nat) :
  Forall (fun p => 1 <= p) factors ->
  forall data, decides (break_down data factors) (repeats_n data (product factors)).
Proof.
  induction 1 as [ | p rest Hp Hrest IH]; intros data; simpl.
  - exists true. split; [reflexivity | ]. split; [intros _; apply repeats_n_one | reflexivity].
  - pose proof (product_pos rest Hrest) as Hpos.
    destruct (data_repeats_exactly_n_times_spec data p Hp) as [b [Hb Eb]].
    rewrite Hb. simpl. destruct b; simpl.
    + rewrite py_int_div_pos by exact Hp. simpl.
      apply decides_iff with (2 := IH _).
      rewrite (repeats_n_mul data p (product rest) Hp Hpos).
      split; [ | tauto]. intros H. split; [apply Eb; reflexivity | exact H].
    + exists false. split; [reflexivity | ]. split; [discriminate | ].
      intros H. apply (repeats_n_mul data p (product rest) Hp Hpos) in H.
      destruct H as [H _]. apply Eb in H. discriminate.
Qed.

Lemma data_repeats_exactly_n_times_recursive_spec (data : bytes) (n : nat) :
  1 <= n -> decides (data_repeats_exactly_n_times_recursive data n) (repeats_n data n).
Proof.
  intros Hn. destruct (prime_factors_spec n Hn) as [Hprod Hprime].
  unfold data_repeats_exactly_n_times_recursive.
  rewrite <- Hprod at 2. apply break_down_spec, is_prime_pos, Hprime.
Qed.

(** ** Borders and the width feasibility check *)

(** The last [s] bytes equal the first [s] bytes exactly when the buffer
    repeats after [len(data) - s] bytes. *)
Lemma border_iff (data : bytes) (s : nat) :
  s <= length data ->
  slice_last data s = slice_to data s <-> periodic (length data - s) data.
Proof.
  intros Hs. unfold slice_last, slice_to. split.
  - intros E i Hi.
    assert (E' : nth_error (skipn (length data - s) data) i =
                 nth_error (firstn s data) i) by (rewrite E; reflexivity).
    rewrite nth_error_skipn, nth_error_firstn in E'.
    destruct (Nat.ltb_spec i s); [ | lia].
    rewrite <- E'. f_equal. lia.
  - intros Hp. apply (bytes_ext _ _ s).
    + rewrite length_skipn. lia.
    + rewrite length_firstn. lia.
    + intros i Hi. rewrite nth_error_skipn, nth_error_firstn.
      destruct (Nat.ltb_spec i s); [ | lia].
      rewrite (Hp i) by lia. f_equal. lia.
Qed.

Lemma periodic_firstn_mod (w n : nat) (data : bytes) (i : nat) :
  0 < w -> periodic w (firstn n data) -> i < n -> i < length data ->
  nth_error data i = nth_error data (i mod w).
Proof.
  intros Hw Hp Hn Hi.
  assert (Hlen : i < length (firstn n data)) by (rewrite length_firstn; lia).
  pose proof (periodic_mod w _ Hw Hp i Hlen) as E.
  pose proof (Nat.Div0.mod_le i w) as Hle.
  rewrite !nth_error_firstn in E.
  destruct (Nat.ltb_spec i n); [ | lia].
  destruct (Nat.ltb_spec (i mod w) n); [ | lia].
  exact E.
Qed.

(** A period [w] of the buffer is a period [w] of its whole-chunk part
    together with a fractional tail that matches the head. *)
Lemma periodic_split (data : bytes) (w : nat) :
  1 <= w ->
  periodic w data <->
  periodic w (slice_drop_last data (length data mod w)) /\
  slice_last data (length data mod w) = slice_to data (length data mod w).
Proof.
  intros Hw. unfold slice_drop_last.
  pose proof (Nat.div_mod_eq (length data) w) as E.
  pose proof (Nat.mod_upper_bound (length data) w ltac:(lia)) as Hr.
  pose proof (Nat.Div0.mod_le (length data) w) as Hle.
  assert (Hwhole : length data - length data mod w = length data / w * w) by lia.
  split.
  - intros Hp. split; [apply periodic_firstn, Hp | ].
    apply border_iff; [exact Hle | ]. rewrite Hwhole.
    intros i Hi. apply (periodic_mul w data Hp _ i Hi).
  - intros [Hpre Hborder]. apply border_iff in Hborder; [ | exact Hle].
    apply mod_periodic; [lia | ]. intros i Hi.
    destruct (Nat.lt_ge_cases i (length data - length data mod w)) as [Hlt | Hge].
    + apply (periodic_firstn_mod w (length data - length data mod w) data i);
        try assumption; lia.
    + (* [i] lies in the fractional tail *)
      set (j := i - (length data - length data mod w)).
      assert (Hj : j < length data mod w) by (unfold j; lia).
      replace i with (j + (length data - length data mod w)) at 1 by (unfold j; lia).
      rewrite <- (Hborder j) by lia.
      f_equal. replace i with (j + length data / w * w) by (unfold j; lia).
      rewrite Nat.Div0.mod_add. symmetry. apply Nat.mod_small. lia.
Qed.

(** A buffer of [q * w] bytes is [q >= 1] copies of a block exactly when it
    repeats after [w] bytes. *)
Lemma repeats_n_periodic (data : bytes) (q w : nat) :
  1 <= q -> length data = q * w ->
  repeats_n data q <-> periodic w data.
Proof.
  intros Hq Hlen. split.
  - intros [c [Hc Hp]]. assert (c = w) as <- by nia. exact Hp.
  - intros Hp. exists w. split; assumption.
Qed.

(** For a width between 1 and the length of the buffer,
    [data_repeats_with_width] returns, and says whether the buffer repeats
    after [width] bytes. *)
Lemma data_repeats_with_width_spec (data : bytes) (w : nat) :
  1 <= w <= length data ->
  decides (data_repeats_with_width data w) (periodic w data).
Proof.
  intros [Hw Hlen]. unfold data_repeats_with_width.
  rewrite py_int_div_pos, py_mod_pos by exact Hw. simpl.
  pose proof (Nat.div_mod_eq (length data) w) as E.
  pose proof (Nat.mod_upper_bound (length data) w ltac:(lia)) as Hr.
  assert (Hq : 1 <= length data / w) by nia.
  destruct (Nat.eqb_spec (length data mod w) 0) as [Hz | Hnz]; simpl.
  - apply decides_iff with (2 := data_repeats_exactly_n_times_recursive_spec data _ Hq).
    apply repeats_n_periodic; [exact Hq | lia].
  - apply decides_iff with (1 := iff_sym (periodic_split data w Hw)).
    destruct (bytes_eqb _ _) eqn:Eb; simpl.
    + apply bytes_eqb_eq in Eb.
      apply decides_iff
        with (2 := data_repeats_exactly_n_times_recursive_spec
                     (slice_drop_last data (length data mod w)) _ Hq).
      assert (Hwhole : length (slice_drop_last data (length data mod w)) =
                       length data / w * w).
      { unfold slice_drop_last. rewrite length_firstn. lia. }
      pose proof (repeats_n_periodic _ (length data / w) w Hq Hwhole) as Hrp.
      split.
      * intros H. split; [apply Hrp, H | symmetry; exact Eb].
      * intros [H _]. apply Hrp, H.
    + apply bytes_eqb_neq in Eb. exists false. split; [reflexivity | ].
      split; [discriminate | ]. intros [_ H]. exfalso. apply Eb. symmetry. exact H.
Qed.

(** ** [bytes.find] and the candidate width generator *)

Lemma find_scan_bounds (data pattern : bytes) (k i o : nat) :
  find_scan data pattern i k = Some o -> i <= o < i + k.
Proof.
  revert i. induction k as [ | k IH]; intros i; simpl; [discriminate | ].
  destruct (bytes_eqb _ _).
  - intros E. injection E as <-. lia.
  - intros E. apply IH in E. lia.
Qed.

(** [find] returns the first anchored position, so the anchored positions of
    a range are that hit followed by the anchored positions after it. *)
Lemma find_scan_filter (data pattern : bytes) (k i : nat) :
  filter (anchored data pattern) (seq i k) =
  match find_scan data pattern i k with
  | None => []
  | Some o => o :: filter (anchored data pattern) (seq (S o) (i + k - S o))
  end.
Proof.
  revert i. induction k as [ | k IH]; intros i; simpl; [reflexivity | ].
  unfold anchored at 1. destruct (bytes_eqb _ _).
  - do 3 f_equal. lia.
  - rewrite IH. destruct (find_scan data pattern (S i) k); [ | reflexivity].
    do 3 f_equal. lia.
Qed.

Lemma find_next_offsets_spec (data pattern : bytes) (fuel offset : nat) :
  length data - length pattern - offset < fuel ->
  find_next_offsets fuel data pattern offset = Ok (anchor_offsets data pattern offset).
Proof.
  revert offset. induction fuel as [ | fuel IH]; intros offset Hfuel; [lia | ].
  simpl. unfold find, anchor_offsets.
  replace (S (length data) - (offset + 1 + length pattern))
    with (length data - length pattern - offset) by lia.
  replace (offset + 1) with (S offset) by lia.
  rewrite find_scan_filter.
  destruct (find_scan data pattern (S offset) _) as [o | ] eqn:E; [ | reflexivity].
  apply find_scan_bounds in E.
  rewrite IH by lia. simpl. unfold anchor_offsets. do 4 f_equal. lia.
Qed.

(** The generator always runs to completion. *)
Lemma find_possible_repeat_widths_eq (data : bytes) :
  find_possible_repeat_widths data =
  Ok (anchor_offsets data (slice_to data SEARCH_BLOCK_SIZE) 0).
Proof.
  unfold find_possible_repeat_widths. apply find_next_offsets_spec. lia.
Qed.

Lemma in_anchor_offsets (data : bytes) (o : nat) :
  SEARCH_BLOCK_SIZE < length data ->
  In o (anchor_offsets data (slice_to data SEARCH_BLOCK_SIZE) 0) <->
  1 <= o /\ o + SEARCH_BLOCK_SIZE <= length data /\
  slice data o (o + SEARCH_BLOCK_SIZE) = slice_to data SEARCH_BLOCK_SIZE.
Proof.
  intros Hlen. unfold anchor_offsets, anchored.
  assert (Hpat : length (slice_to data SEARCH_BLOCK_SIZE) = SEARCH_BLOCK_SIZE).
  { unfold slice_to. rewrite length_firstn. lia. }
  rewrite filter_In, in_seq, bytes_eqb_eq, Hpat.
  split; intros H; repeat split; try apply H; lia.
Qed.

Lemma filter_seq_increasing (f : nat -> bool) (n a : nat) :
  StronglySorted lt (filter f (seq a n)).
Proof.
  revert a. induction n as [ | n IH]; intros a; simpl; [constructor | ].
  destruct (f a); [ | apply IH].
  constructor; [apply IH | ].
  apply Forall_forall. intros x Hx. apply filter_In in Hx.
  destruct Hx as [Hx _]. apply in_seq in Hx. lia.
Qed.

(** A width at which the buffer repeats, and which leaves room for a whole
    anchor block behind it, is an anchored position. *)
Lemma periodic_anchored (data : bytes) (w : nat) :
  periodic w data -> w + SEARCH_BLOCK_SIZE <= length data ->
  slice data w (w + SEARCH_BLOCK_SIZE) = slice_to data SEARCH_BLOCK_SIZE.
Proof.
  intros Hp Hlen. apply (bytes_ext _ _ SEARCH_BLOCK_SIZE).
  - rewrite length_slice. lia.
  - unfold slice_to. rewrite length_firstn. lia.
  - intros j Hj. unfold slice_to. rewrite nth_error_slice, nth_error_firstn.
    destruct (Nat.ltb_spec (w + j) (w + SEARCH_BLOCK_SIZE)); [ | lia].
    destruct (Nat.ltb_spec j SEARCH_BLOCK_SIZE); [ | lia].
    rewrite (Hp j) by lia. f_equal. lia.
Qed.

(** ** The search loops of [data_repeats] *)

Lemma repeats_at_iff (data : bytes) (w : nat) :
  in_bounds data w -> repeats_at data w <-> periodic w data.
Proof. intros H. apply decides_true, data_repeats_with_width_spec, H. Qed.

Lemma fails_at_iff (data : bytes) (w : nat) :
  in_bounds data w -> fails_at data w <-> ~ periodic w data.
Proof. intros H. apply decides_false, data_repeats_with_width_spec, H. Qed.

Lemma width_checked (data : bytes) (w : nat) :
  in_bounds data w -> repeats_at data w \/ fails_at data w.
Proof.
  intros H. destruct (data_repeats_with_width_spec data w H) as [b [Hb _]].
  unfold repeats_at, fails_at. rewrite Hb. destruct b; [left | right]; reflexivity.
Qed.

Lemma repeats_fails_exclusive (data : bytes) (w : nat) :
  repeats_at data w -> fails_at data w -> False.
Proof. unfold repeats_at, fails_at. intros -> H. discriminate. Qed.

Lemma brute_force_spec (data : bytes) (offsets : list nat) :
  Forall (in_bounds data) offsets ->
  match brute_force data offsets with
  | Ok (Some o) =>
      exists l1 l2, offsets = l1 ++ o :: l2 /\
                    Forall (fails_at data) l1 /\ repeats_at data o
  | Ok None => Forall (fails_at data) offsets
  | _ => False
  end.
Proof.
  induction 1 as [ | o rest Ho _ IH]; simpl; [constructor | ].
  destruct (width_checked data o Ho) as [Hr | Hf].
  - rewrite Hr. simpl. exists [], rest. repeat split; [constructor | exact Hr].
  - rewrite Hf. simpl. destruct (brute_force data rest) as [[o' | ] | | ]; try contradiction.
    + destruct IH as [l1 [l2 [E [Hl1 Ho']]]]. exists (o :: l1), l2.
      repeat split; [rewrite E; reflexivity | constructor; assumption | exact Ho'].
    + constructor; assumption.
Qed.

Lemma generator_search_spec (limit : option nat) (data : bytes) (offsets : list nat) :
  Forall (in_bounds data) offsets ->
  forall attempts,
  match generator_search limit data offsets attempts with
  | Ok (Some (Found o)) =>
      exists l1 l2, offsets = l1 ++ o :: l2 /\
                    Forall (fails_at data) l1 /\ repeats_at data o
  | Ok (Some Aborted) =>
      exists m, limit = Some m /\ attempts < m /\ m - attempts <= length offsets /\
                Forall (fails_at data) (firstn (m - attempts) offsets)
  | Ok (Some NotFound) => False
  | Ok None => Forall (fails_at data) offsets
  | _ => False
  end.
Proof.
  induction 1 as [ | o rest Ho _ IH]; intros attempts; simpl; [constructor | ].
  destruct (width_checked data o Ho) as [Hr | Hf].
  - rewrite Hr. simpl. exists [], rest. repeat split; [constructor | exact Hr].
  - rewrite Hf. simpl. destruct (attempts_reached (attempts + 1) limit) eqn:Ea.
    + destruct limit as [m | ]; simpl in Ea; [ | discriminate].
      apply Nat.eqb_eq in Ea. exists m.
      replace (m - attempts) with 1 by lia. simpl.
      repeat split; try lia. constructor; [exact Hf | constructor].
    + specialize (IH (attempts + 1)).
      destruct (generator_search limit data rest (attempts + 1))
        as [[[o' | | ] | ] | | ]; try contradiction.
      * destruct IH as [l1 [l2 [E [Hl1 Ho']]]]. exists (o :: l1), l2.
        repeat split; [rewrite E; reflexivity | constructor; assumption | exact Ho'].
      * destruct IH as [m [Hm [Hlt [Hle Hall]]]]. exists m.
        replace (m - attempts) with (S (m - (attempts + 1))) by lia. simpl.
        repeat split; try assumption; try lia. constructor; assumption.
      * constructor; assumption.
Qed.

(** The search aborts as soon as the counter of failed candidates reaches
    the limit. *)
Lemma generator_search_aborts (limit : option nat) (data : bytes) (offsets : list nat) :
  forall attempts m,
  limit = Some m -> attempts < m -> m - attempts <= length offsets ->
  Forall (fails_at data) (firstn (m - attempts) offsets) ->
  generator_search limit data offsets attempts = Ok (Some Aborted).
Proof.
  induction offsets as [ | o rest IH]; intros attempts m Hm Hlt Hle Hall; simpl in *; [lia | ].
  destruct (m - attempts) as [ | k] eqn:Ek; [lia | ]. simpl in Hall.
  inversion Hall as [ | ? ? Hf Hrest]; subst.
  rewrite Hf. simpl.
  destruct (Nat.eq_dec (attempts + 1) m) as [E | E].
  - subst m. simpl. rewrite Nat.eqb_refl. reflexivity.
  - simpl. destruct (Nat.eqb_spec (attempts + 1) m); [contradiction | ].
    apply (IH (attempts + 1) m); try lia; try reflexivity.
    replace (m - (attempts + 1)) with k by lia. exact Hrest.
Qed.

(** ** The tail-fraction scanner *)

Lemma range_down_S (n : nat) : range_down (S n) 0 = S n :: range_down n 0.
Proof.
  unfold range_down. rewrite !Nat.sub_0_r, seq_S, rev_app_distr. reflexivity.
Qed.

Lemma scan_remainder_sizes_spec (data : bytes) (n : nat) :
  match scan_remainder_sizes data (range_down n 0) with
  | Some w =>
      exists s, 1 <= s <= n /\ s < length data /\ w = length data - s /\
                slice_last data s = slice_to data s /\
                forall s', s < s' <= n -> s' < length data ->
                           slice_last data s' <> slice_to data s'
  | None =>
      forall s, 1 <= s <= n -> s < length data ->
                slice_last data s <> slice_to data s
  end.
Proof.
  induction n as [ | n IH].
  - simpl. intros s Hs. lia.
  - rewrite range_down_S. simpl.
    destruct (Nat.leb_spec (length data) (S n)) as [Hbig | Hfit].
    + destruct (scan_remainder_sizes data (range_down n 0)) as [w | ].
      * destruct IH as [s [Hs [Hlt [Ew [Eb Hmax]]]]]. exists s.
        repeat split; try assumption; try lia.
        intros s' Hs' Hlt'. apply Hmax; lia.
      * intros s Hs Hlt. apply IH; lia.
    + destruct (bytes_eqb _ _) eqn:Eb.
      * apply bytes_eqb_eq in Eb. exists (S n).
        repeat split; try assumption; try lia.
      * apply bytes_eqb_neq in Eb.
        destruct (scan_remainder_sizes data (range_down n 0)) as [w | ].
        -- destruct IH as [s [Hs [Hlt [Ew [Eb' Hmax]]]]]. exists s.
           repeat split; try assumption; try lia.
           intros s' Hs' Hlt'. destruct (Nat.eq_dec s' (S n)) as [-> | Hne];
             [exact Eb | apply Hmax; lia].
        -- intros s Hs Hlt. destruct (Nat.eq_dec s (S n)) as [-> | Hne];
             [exact Eb | apply IH; lia].
Qed.

(** ** The orchestrator, branch by branch *)

Lemma search_block_size_eq : SEARCH_BLOCK_SIZE = 32.
Proof. reflexivity. Qed.

Lemma data_repeats_short (limit : option nat) (data : bytes) :
  length data < 2 -> data_repeats_with_limit limit data = Ok NotFound.
Proof.
  intros H. unfold data_repeats_with_limit.
  destruct (Nat.ltb_spec (length data) 2); [reflexivity | lia].
Qed.

Lemma data_repeats_small (limit : option nat) (data : bytes) :
  2 <= length data <= SEARCH_BLOCK_SIZE ->
  data_repeats_with_limit limit data =
  (hit <- brute_force data (range 1 (length data)) ;;
   match hit with
   | Some offset => Ok (Found offset)
   | None => Ok NotFound
   end).
Proof.
  intros H. unfold data_repeats_with_limit.
  destruct (Nat.ltb_spec (length data) 2); [lia | ].
  destruct (Nat.leb_spec (length data) SEARCH_BLOCK_SIZE); [reflexivity | lia].
Qed.

Lemma data_repeats_large (limit : option nat) (data : bytes) :
  SEARCH_BLOCK_SIZE < length data ->
  data_repeats_with_limit limit data =
  (hit <- generator_search limit data
            (anchor_offsets data (slice_to data SEARCH_BLOCK_SIZE) 0) 0 ;;
   match hit with
   | Some result => Ok result
   | None => Ok (tail_fallback data)
   end).
Proof.
  intros H. unfold data_repeats_with_limit.
  assert (2 <= length data) by (unfold SEARCH_BLOCK_SIZE in H; lia).
  destruct (Nat.ltb_spec (length data) 2); [lia | ].
  destruct (Nat.leb_spec (length data) SEARCH_BLOCK_SIZE); [lia | ].
  rewrite find_possible_repeat_widths_eq. reflexivity.
Qed.

Lemma range_in_bounds (data : bytes) :
  Forall (in_bounds data) (range 1 (length data)).
Proof.
  apply Forall_forall. intros o Ho. apply in_range in Ho. unfold in_bounds. lia.
Qed.

Lemma anchor_offsets_in_bounds (data : bytes) :
  SEARCH_BLOCK_SIZE < length data ->
  Forall (in_bounds data) (anchor_offsets data (slice_to data SEARCH_BLOCK_SIZE) 0).
Proof.
  intros H. apply Forall_forall. intros o Ho.
  apply in_anchor_offsets in Ho; [ | exact H]. unfold in_bounds. lia.
Qed.

Lemma tail_fallback_spec (data : bytes) :
  match tail_fallback data with
  | Found w =>
      exists s, 1 <= s < SEARCH_BLOCK_SIZE /\ s < length data /\ w = length data - s /\
                slice_last data s = slice_to data s /\
                forall s', s < s' < SEARCH_BLOCK_SIZE -> s' < length data ->
                           slice_last data s' <> slice_to data s'
  | NotFound =>
      forall s, 1 <= s < SEARCH_BLOCK_SIZE -> s < length data ->
                slice_last data s <> slice_to data s
  | Aborted => False
  end.
Proof.
  unfold tail_fallback, check_for_minimal_repeat_at_end.
  pose proof (scan_remainder_sizes_spec data (SEARCH_BLOCK_SIZE - 1)) as H.
  destruct (scan_remainder_sizes data (range_down (SEARCH_BLOCK_SIZE - 1) 0)) as [w | ].
  - destruct H as [s [Hs [Hlt [Ew [Eb Hmax]]]]].
    destruct (Nat.eqb_spec w 0) as [Hz | Hnz]; [lia | ].
    exists s. unfold SEARCH_BLOCK_SIZE in *. repeat split; try assumption; try lia.
    intros s' Hs' Hlt'. apply Hmax; lia.
  - intros s Hs Hlt. apply H; unfold SEARCH_BLOCK_SIZE in *; lia.
Qed.

(** Every width [data_repeats] returns lies strictly inside the buffer and is
    a width at which the buffer repeats. *)
Lemma data_repeats_found_sound (limit : option nat) (data : bytes) (w : nat) :
  data_repeats_with_limit limit data = Ok (Found w) ->
  1 <= w < length data /\ periodic w data.
Proof.
  intros H.
  destruct (Nat.lt_ge_cases (length data) 2) as [Hshort | Hlong].
  { rewrite data_repeats_short in H by exact Hshort. discriminate. }
  destruct (Nat.le_gt_cases (length data) SEARCH_BLOCK_SIZE) as [Hsmall | Hlarge].
  - rewrite data_repeats_small in H by lia.
    pose proof (brute_force_spec data _ (range_in_bounds data)) as Hbf.
    destruct (brute_force data (range 1 (length data))) as [[o | ] | | ];
      simpl in H; try discriminate. injection H as ->.
    destruct Hbf as [l1 [l2 [E [_ Hr]]]].
    assert (Hin : In w (range 1 (length data))).
    { rewrite E. apply in_elt. }
    apply in_range in Hin. split; [lia | ].
    apply repeats_at_iff; [unfold in_bounds; lia | exact Hr].
  - rewrite data_repeats_large in H by exact Hlarge.
    pose proof (generator_search_spec limit data _ (anchor_offsets_in_bounds data Hlarge) 0) as Hgs.
    destruct (generator_search limit data _ 0) as [[[o | | ] | ] | | ];
      simpl in H; try discriminate; try contradiction.
    + injection H as ->. destruct Hgs as [l1 [l2 [E [_ Hr]]]].
      assert (Hin : In w (anchor_offsets data (slice_to data SEARCH_BLOCK_SIZE) 0)).
      { rewrite E. apply in_elt. }
      apply in_anchor_offsets in Hin; [ | exact Hlarge].
      unfold SEARCH_BLOCK_SIZE in Hin. split; [lia | ].
      apply repeats_at_iff; [unfold in_bounds; lia | exact Hr].
    + injection H as H. pose proof (tail_fallback_spec data) as Ht.
      rewrite H in Ht. destruct Ht as [s [Hs [Hlt [-> [Eb _]]]]].
      split; [lia | ]. apply border_iff; [lia | exact Eb].
Qed.

(** [data_repeats] returns for every buffer. *)
Lemma data_repeats_returns (limit : option nat) (data : bytes) :
  exists r, data_repeats_with_limit limit data = Ok r.
Proof.
  destruct (Nat.lt_ge_cases (length data) 2) as [Hshort | Hlong].
  { exists NotFound. apply data_repeats_short, Hshort. }
  destruct (Nat.le_gt_cases (length data) SEARCH_BLOCK_SIZE) as [Hsmall | Hlarge].
  - rewrite data_repeats_small by lia.
    pose proof (brute_force_spec data _ (range_in_bounds data)) as Hbf.
    destruct (brute_force data (range 1 (length data))) as [[o | ] | | ];
      simpl; try contradiction; eexists; reflexivity.
  - rewrite data_repeats_large by exact Hlarge.
    pose proof (generator_search_spec limit data _ (anchor_offsets_in_bounds data Hlarge) 0) as Hgs.
    destruct (generator_search limit data _ 0) as [[r | ] | | ];
      simpl; try contradiction; eexists; reflexivity.
Qed.

(** ** Repeating a block *)

Lemma length_concat_repeat (B : bytes) (k : nat) :
  length (concat (repeat B k)) = k * length B.
Proof.
  induction k as [ | k IH]; simpl; [reflexivity | ].
  rewrite length_app, IH. reflexivity.
Qed.

Lemma nth_error_concat_repeat (B : bytes) (k i : nat) :
  0 < length B ->
  nth_error (concat (repeat B k)) i =
  if i <? k * length B then nth_error B (i mod length B) else None.
Proof.
  intros HB. revert i. induction k as [ | k IH]; intros i; simpl.
  - destruct i; reflexivity.
  - rewrite nth_error_app.
    destruct (Nat.ltb_spec i (length B)) as [Hi | Hi].
    + destruct (Nat.ltb_spec i (length B + k * length B)); [ | lia].
      rewrite Nat.mod_small by exact Hi. reflexivity.
    + rewrite IH.
      replace (i mod length B) with ((i - length B) mod length B).
      * destruct (Nat.ltb_spec (i - length B) (k * length B)),
                 (Nat.ltb_spec i (length B + k * length B)); try lia; reflexivity.
      * replace i with (i - length B + 1 * length B) at 2 by lia.
        symmetry. apply Nat.Div0.mod_add.
Qed.

Lemma concat_repeat_periodic (B : bytes) (k : nat) :
  periodic (length B) (concat (repeat B k)).
Proof.
  destruct (Nat.eq_0_gt_0_cases (length B)) as [Hz | HB].
  { rewrite Hz. apply periodic_zero. }
  intros i Hi. rewrite length_concat_repeat in Hi.
  rewrite !nth_error_concat_repeat by exact HB.
  destruct (Nat.ltb_spec i (k * length B)); [ | lia].
  destruct (Nat.ltb_spec (i + length B) (k * length B)); [ | lia].
  f_equal. replace (i + length B) with (i + 1 * length B) by lia.
  symmetry. apply Nat.Div0.mod_add.
Qed.

(** A buffer that repeats after [w] bytes is its first [w] bytes, repeated and
    cut to the length of the buffer. *)
Lemma periodic_reconstructs (data : bytes) (w k : nat) :
  1 <= w <= length data -> periodic w data -> length data <= k * w ->
  slice_to (concat (repeat (slice_to data w) k)) (length data) = data.
Proof.
  intros Hw Hp Hk. unfold slice_to.
  assert (HB : length (firstn w data) = w) by (rewrite length_firstn; lia).
  apply (bytes_ext _ _ (length data)).
  - rewrite length_firstn, length_concat_repeat, HB. lia.
  - reflexivity.
  - intros i Hi. rewrite nth_error_firstn.
    destruct (Nat.ltb_spec i (length data)); [ | lia].
    rewrite nth_error_concat_repeat by lia. rewrite HB.
    destruct (Nat.ltb_spec i (k * w)); [ | lia].
    rewrite nth_error_firstn.
    pose proof (Nat.mod_upper_bound i w ltac:(lia)) as Hb.
    destruct (Nat.ltb_spec (i mod w) w); [ | lia].
    symmetry. apply periodic_mod; [lia | exact Hp | exact Hi].
Qed.

(** * The claims *)

(** C1. Every width [W] that [data_repeats] returns reconstructs the buffer:
    the first [W] bytes, repeated and truncated to [len(data)], give [data]
    back; the fractional tail [data[len - len mod W:]] equals the head
    [data[0 : len mod W]], and each of the [len / W] whole chunks of size [W]
    equals the first one.  This covers the brute-force loop, the generator
    search and the tail scanner. *)
Theorem data_repeats_found_round_trip (data : bytes) (W : nat) :
  data_repeats data = Ok (Found W) ->
  (forall k, length data <= k * W ->
             slice_to (concat (repeat (slice_to data W) k)) (length data) = data) /\
  slice data 0 (length data mod W) =
    slice data (length data - length data mod W) (length data) /\
  (forall i, i < length data / W ->
             slice data (W * i) (W * (i + 1)) = slice_to data W).
Proof.
  intros H. apply data_repeats_found_sound in H. destruct H as [HW Hp].
  split; [ | split].
  - intros k Hk. apply periodic_reconstructs; [lia | exact Hp | exact Hk].
  - apply (periodic_split data W) in Hp; [ | lia]. destruct Hp as [_ Hb].
    unfold slice, slice_last, slice_to in *.
    rewrite firstn_all, skipn_0. symmetry. exact Hb.
  - intros i Hi. symmetry.
    pose proof (Nat.Div0.mul_div_le (length data) W) as Hle.
    apply chunk_eq_iff; [nia | ].
    intros j Hj. rewrite (periodic_mul W data Hp i j) by nia.
    f_equal. lia.
Qed.

(** C2. For [n >= 1] the factorized validator and the naive validator return
    the same boolean, and neither raises. *)
Theorem recursive_validator_agrees (data : bytes) (n : nat) :
  1 <= n ->
  data_repeats_exactly_n_times_recursive data n = data_repeats_exactly_n_times data n /\
  exists b, data_repeats_exactly_n_times data n = Ok b.
Proof.
  intros Hn. split.
  - apply decides_same with (P := repeats_n data n).
    + apply data_repeats_exactly_n_times_recursive_spec, Hn.
    + apply data_repeats_exactly_n_times_spec, Hn.
  - destruct (data_repeats_exactly_n_times_spec data n Hn) as [b [Hb _]].
    exists b. exact Hb.
Qed.

(** In a strictly increasing list, what is smaller than an element stands
    before it. *)
Lemma sorted_before (l1 l2 : list nat) (x y : nat) :
  StronglySorted lt (l1 ++ x :: l2) -> In y (l1 ++ x :: l2) -> y < x -> In y l1.
Proof.
  induction l1 as [ | a l1 IH]; simpl; intros Hs Hin Hlt.
  - apply StronglySorted_inv in Hs. destruct Hs as [_ Hall].
    destruct Hin as [-> | Hin]; [lia | ].
    rewrite Forall_forall in Hall. apply Hall in Hin. lia.
  - apply StronglySorted_inv in Hs. destruct Hs as [Hs _].
    destruct Hin as [-> | Hin]; [left; reflexivity | right].
    apply IH; assumption.
Qed.

(** C3. For a buffer longer than the anchor block, no width [W'] with
    [K <= W' < W] passes [data_repeats_with_width] when [data_repeats]
    returns [W]. *)
Theorem data_repeats_minimal_from_anchor_size (data : bytes) (W W' : nat) :
  SEARCH_BLOCK_SIZE < length data ->
  data_repeats data = Ok (Found W) ->
  SEARCH_BLOCK_SIZE <= W' < W ->
  data_repeats_with_width data W' = Ok false.
Proof.
  intros Hlarge H HW'. pose proof search_block_size_eq as HK.
  pose proof (data_repeats_found_sound _ _ _ H) as [HW _].
  assert (Hb : in_bounds data W') by (unfold in_bounds; lia).
  destruct (width_checked data W' Hb) as [Hr | Hf]; [exfalso | exact Hf].
  pose proof (proj1 (repeats_at_iff data W' Hb) Hr) as Hp.
  unfold data_repeats in H. rewrite data_repeats_large in H by exact Hlarge.
  pose proof (generator_search_spec MAXIMUM_WIDTH_ATTEMPTS data _
                (anchor_offsets_in_bounds data Hlarge) 0) as Hgs.
  assert (Hanch : W' + SEARCH_BLOCK_SIZE <= length data ->
                  In W' (anchor_offsets data (slice_to data SEARCH_BLOCK_SIZE) 0)).
  { intros Hfit. apply in_anchor_offsets; [exact Hlarge | ].
    repeat split; [lia | exact Hfit | apply periodic_anchored; assumption]. }
  destruct (generator_search MAXIMUM_WIDTH_ATTEMPTS data _ 0) as [[[o | | ] | ] | | ];
    simpl in H; try discriminate; try contradiction.
  - (* the generator search returned [W] *)
    injection H as ->. destruct Hgs as [l1 [l2 [E [Hl1 _]]]].
    assert (HinW : In W (anchor_offsets data (slice_to data SEARCH_BLOCK_SIZE) 0)).
    { rewrite E. apply in_elt. }
    apply in_anchor_offsets in HinW; [ | exact Hlarge].
    assert (Hin : In W' l1).
    { apply (sorted_before l1 l2 W W'); [ | | lia].
      - rewrite <- E. apply filter_seq_increasing.
      - rewrite <- E. apply Hanch. lia. }
    rewrite Forall_forall in Hl1. apply (repeats_fails_exclusive data W' Hr), Hl1, Hin.
  - (* the tail scanner returned [W] *)
    injection H as H. pose proof (tail_fallback_spec data) as Ht.
    rewrite H in Ht. destruct Ht as [s [Hs [Hlt [-> [_ Hmax]]]]].
    destruct (Nat.le_gt_cases (W' + SEARCH_BLOCK_SIZE) (length data)) as [Hfit | Hnofit].
    + rewrite Forall_forall in Hgs.
      apply (repeats_fails_exclusive data W' Hr), Hgs, Hanch, Hfit.
    + apply (Hmax (length data - W')); [lia | lia | ].
      apply border_iff; [lia | ].
      replace (length data - (length data - W')) with W' by lia. exact Hp.
Qed.

(** C4, as stated, fails: the 33-byte buffer 0, 1, ..., 31, 0 repeats at
    width 32, yet the generator yields nothing, because no second whole
    anchor block fits behind offset 32. *)
Lemma generator_misses_width_near_end :
  SEARCH_BLOCK_SIZE < length block32_plus_one /\
  ~ yields_every_repeating_width block32_plus_one.
Proof.
  split; [vm_compute; lia | ].
  intros H. specialize (H [] 32).
  apply H; [vm_compute; reflexivity | vm_compute; lia | vm_compute; reflexivity].
Qed.

(** C4, amended.  For a buffer longer than the anchor block, the generator
    yields a strictly increasing sequence of offsets, each at least 1 and each
    a position where the first [K] bytes occur again; every width [W >= K]
    at which the buffer repeats and which leaves room for a whole anchor
    block behind it ([W + K <= len(data)]) is among them. *)
Theorem find_possible_repeat_widths_offsets (data : bytes) :
  SEARCH_BLOCK_SIZE < length data ->
  exists offsets,
    find_possible_repeat_widths data = Ok offsets /\
    StronglySorted lt offsets /\
    Forall (fun o => 1 <= o /\
                     slice data o (o + SEARCH_BLOCK_SIZE) = slice_to data SEARCH_BLOCK_SIZE)
           offsets /\
    forall W, SEARCH_BLOCK_SIZE <= W ->
              W + SEARCH_BLOCK_SIZE <= length data ->
              data_repeats_with_width data W = Ok true ->
              In W offsets.
Proof.
  intros Hlarge. pose proof search_block_size_eq as HK.
  exists (anchor_offsets data (slice_to data SEARCH_BLOCK_SIZE) 0).
  split; [apply find_possible_repeat_widths_eq | ].
  split; [apply filter_seq_increasing | ].
  split.
  - apply Forall_forall. intros o Ho. apply in_anchor_offsets in Ho; [ | exact Hlarge].
    split; apply Ho.
  - intros W HW Hfit Hr.
    assert (Hb : in_bounds data W) by (unfold in_bounds; lia).
    apply in_anchor_offsets; [exact Hlarge | ].
    repeat split; [lia | exact Hfit | ].
    apply periodic_anchored; [ | exact Hfit].
    apply (repeats_at_iff data W Hb). exact Hr.
Qed.

Lemma find_possible_repeat_widths_offsets_witness :
  SEARCH_BLOCK_SIZE < length block33_cycled /\
  find_possible_repeat_widths block33_cycled = Ok [33; 66] /\
  (SEARCH_BLOCK_SIZE <= 33 /\ 33 + SEARCH_BLOCK_SIZE <= length block33_cycled /\
   data_repeats_with_width block33_cycled 33 = Ok true) /\
  exists offsets,
    find_possible_repeat_widths block33_cycled = Ok offsets /\
    StronglySorted lt offsets /\
    Forall (fun o => 1 <= o /\
                     slice block33_cycled o (o + SEARCH_BLOCK_SIZE) =
                     slice_to block33_cycled SEARCH_BLOCK_SIZE)
           offsets /\
    forall W, SEARCH_BLOCK_SIZE <= W ->
              W + SEARCH_BLOCK_SIZE <= length block33_cycled ->
              data_repeats_with_width block33_cycled W = Ok true ->
              In W offsets.
Proof.
  assert (Hlarge : SEARCH_BLOCK_SIZE < length block33_cycled) by (vm_compute; lia).
  split; [exact Hlarge | ].
  split; [vm_compute; reflexivity | ].
  split.
  - split; [vm_compute; lia | ].
    split; [vm_compute; lia | vm_compute; reflexivity].
  - exact (find_possible_repeat_widths_offsets block33_cycled Hlarge).
Defined.

(** ** Aborting the search *)

Lemma tail_fallback_not_aborted (data : bytes) : tail_fallback data <> Aborted.
Proof.
  intros H. pose proof (tail_fallback_spec data) as Ht. rewrite H in Ht. exact Ht.
Qed.

(** With a limit [m], the search aborts exactly when the generator yields at
    least [m] offsets and the first [m] all fail; the result then is the one
    the search loop returned. *)
Lemma data_repeats_with_limit_aborted_iff (m : nat) (data : bytes) :
  SEARCH_BLOCK_SIZE < length data ->
  let offsets := anchor_offsets data (slice_to data SEARCH_BLOCK_SIZE) 0 in
  (data_repeats_with_limit (Some m) data = Ok Aborted <->
   generator_search (Some m) data offsets 0 = Ok (Some Aborted)) /\
  (generator_search (Some m) data offsets 0 = Ok (Some Aborted) <->
   1 <= m <= length offsets /\ Forall (fails_at data) (firstn m offsets)).
Proof.
  intros Hlarge offsets. rewrite data_repeats_large by exact Hlarge. fold offsets.
  pose proof (generator_search_spec (Some m) data offsets
                (anchor_offsets_in_bounds data Hlarge) 0) as Hgs.
  split; split.
  - destruct (generator_search (Some m) data offsets 0) as [[[o | | ] | ] | | ];
      simpl; try discriminate; try contradiction; try reflexivity.
    intros H. injection H as H. exfalso. apply (tail_fallback_not_aborted data H).
  - intros ->. reflexivity.
  - intros H. rewrite H in Hgs. destruct Hgs as [m' [Em [Hlt [Hle Hall]]]].
    injection Em as <-. rewrite Nat.sub_0_r in *. split; [lia | exact Hall].
  - intros [Hm Hall]. apply (generator_search_aborts (Some m) data offsets 0 m).
    + reflexivity.
    + lia.
    + rewrite Nat.sub_0_r. lia.
    + rewrite Nat.sub_0_r. exact Hall.
Qed.

Lemma slice_of_run (x : byte) (n : nat) (rest : bytes) (o k : nat) :
  o + k <= n -> slice (repeat x n ++ rest) o (o + k) = repeat x k.
Proof.
  intros H. apply (bytes_ext _ _ k).
  - rewrite length_slice, length_app, repeat_length. lia.
  - apply repeat_length.
  - intros j Hj. rewrite nth_error_slice.
    destruct (Nat.ltb_spec (o + j) (o + k)); [ | lia].
    rewrite nth_error_app1 by (rewrite repeat_length; lia).
    rewrite !nth_error_repeat by lia. reflexivity.
Qed.

(** A run of [n] equal bytes followed by a different byte: every offset up to
    [n - K] is anchored and none of them is a width at which the buffer
    repeats, so a limit [m <= n - K] is reached. *)
Lemma run_then_break_aborts (x y : byte) (n m : nat) (rest : bytes) :
  x <> y -> 1 <= m -> m + SEARCH_BLOCK_SIZE <= n ->
  data_repeats_with_limit (Some m) (repeat x n ++ y :: rest) = Ok Aborted.
Proof.
  intros Hxy Hm Hn. pose proof search_block_size_eq as HK.
  set (data := repeat x n ++ y :: rest).
  assert (Hlen : length data = n + S (length rest)).
  { unfold data. rewrite length_app, repeat_length. reflexivity. }
  assert (Hlarge : SEARCH_BLOCK_SIZE < length data) by lia.
  destruct (data_repeats_with_limit_aborted_iff m data Hlarge) as [Hres Hloop].
  apply Hres, Hloop. clear Hres Hloop.
  assert (Hpat : length (slice_to data SEARCH_BLOCK_SIZE) = SEARCH_BLOCK_SIZE).
  { unfold slice_to. rewrite length_firstn. lia. }
  assert (Hsplit : anchor_offsets data (slice_to data SEARCH_BLOCK_SIZE) 0 =
                   seq 1 (n - SEARCH_BLOCK_SIZE) ++
                   filter (anchored data (slice_to data SEARCH_BLOCK_SIZE))
                          (seq (1 + (n - SEARCH_BLOCK_SIZE)) (S (length rest)))).
  { unfold anchor_offsets. rewrite Hpat.
    replace (length data - SEARCH_BLOCK_SIZE - 0)
      with ((n - SEARCH_BLOCK_SIZE) + S (length rest)) by lia.
    rewrite seq_app, filter_app. f_equal.
    apply forallb_filter_id, forallb_forall. intros o Ho. apply in_seq in Ho.
    unfold anchored. apply bytes_eqb_eq. rewrite Hpat.
    unfold data, slice_to.
    rewrite (slice_of_run x n (y :: rest) o SEARCH_BLOCK_SIZE) by lia.
    change (firstn SEARCH_BLOCK_SIZE (repeat x n ++ y :: rest))
      with (slice (repeat x n ++ y :: rest) 0 (0 + SEARCH_BLOCK_SIZE)).
    rewrite (slice_of_run x n (y :: rest) 0 SEARCH_BLOCK_SIZE) by lia.
    reflexivity. }
  rewrite Hsplit. split.
  - rewrite length_app, length_seq. lia.
  - rewrite firstn_app, length_seq.
    replace (m - (n - SEARCH_BLOCK_SIZE)) with 0 by lia.
    rewrite firstn_0, app_nil_r.
    apply Forall_forall. intros o Ho.
    assert (Hin : In o (seq 1 (n - SEARCH_BLOCK_SIZE))).
    { rewrite <- (firstn_skipn m). apply in_or_app. left. exact Ho. }
    apply in_seq in Hin.
    apply fails_at_iff; [unfold in_bounds; lia | ].
    intros Hp. specialize (Hp (n - o) ltac:(lia)).
    replace (n - o + o) with n in Hp by lia. unfold data in Hp.
    rewrite nth_error_app1 in Hp by (rewrite repeat_length; lia).
    rewrite nth_error_app2 in Hp by (rewrite repeat_length; lia).
    rewrite nth_error_repeat in Hp by lia.
    rewrite repeat_length, Nat.sub_diag in Hp. simpl in Hp.
    injection Hp as Hp. contradiction.
Qed.

(** C5. For a buffer longer than the anchor block, [data_repeats] returns
    [Aborted] exactly when the generator yields at least 1024 offsets and the
    first 1024 of them all fail [data_repeats_with_width]; the [Aborted]
    result is the one the search loop returned, whatever the tail scanner
    would find.  In particular, 2048 equal bytes followed by one different
    byte give [Aborted]. *)
Theorem data_repeats_aborted_iff :
  (forall data, SEARCH_BLOCK_SIZE < length data ->
     exists offsets,
       find_possible_repeat_widths data = Ok offsets /\
       (data_repeats data = Ok Aborted <->
        1024 <= length offsets /\
        Forall (fun o => data_repeats_with_width data o = Ok false)
               (firstn 1024 offsets)) /\
       (data_repeats data = Ok Aborted <->
        generator_search MAXIMUM_WIDTH_ATTEMPTS data offsets 0 = Ok (Some Aborted))) /\
  (forall x y, x <> y ->
     data_repeats (repeat x 2048 ++ [y]) = Ok Aborted).
Proof.
  split.
  - intros data Hlarge.
    exists (anchor_offsets data (slice_to data SEARCH_BLOCK_SIZE) 0).
    split; [apply find_possible_repeat_widths_eq | ].
    destruct (data_repeats_with_limit_aborted_iff 1024 data Hlarge) as [Hres Hloop].
    split; [ | exact Hres].
    unfold data_repeats. change MAXIMUM_WIDTH_ATTEMPTS with (Some 1024).
    rewrite Hres, Hloop. unfold fails_at. split.
    + intros [[_ Hle] Hall]. split; assumption.
    + intros [Hle Hall]. repeat split; try assumption. apply Nat.leb_le. reflexivity.
  - intros x y Hxy. unfold data_repeats. change MAXIMUM_WIDTH_ATTEMPTS with (Some 1024).
    apply run_then_break_aborts; [exact Hxy | | ]; apply Nat.leb_le; reflexivity.
Qed.

(** C6, as stated, fails for [n = 1]: any buffer is one copy of itself, so
    the extra byte is accepted. *)
Lemma extra_byte_accepted_for_single_repeat :
  1 <= 1 /\ [x41] <> [] /\
  data_repeats_exactly_n_times (concat (repeat [x41] 1) ++ [x31]) 1 = Ok true /\
  data_repeats_exactly_n_times (concat (repeat [x41] 1) ++ [x31]) 1 <> Ok false.
Proof.
  split; [lia | ]. split; [discriminate | ].
  split; vm_compute; [reflexivity | discriminate].
Qed.

(** C6, amended.  For [n >= 1] and a non-empty block [B],
    [data_repeats_exactly_n_times] accepts [B] repeated [n] times; with one
    extra byte appended it returns false when [n >= 2], and true when
    [n = 1]. *)
Theorem exact_repeat_of_block (n : nat) (B : bytes) (b : byte) :
  1 <= n -> B <> [] ->
  data_repeats_exactly_n_times (concat (repeat B n)) n = Ok true /\
  (2 <= n -> data_repeats_exactly_n_times (concat (repeat B n) ++ [b]) n = Ok false) /\
  (n = 1 -> data_repeats_exactly_n_times (concat (repeat B n) ++ [b]) n = Ok true).
Proof.
  intros Hn HB. split; [ | split].
  - apply (decides_true _ _ (data_repeats_exactly_n_times_spec _ n Hn)).
    exists (length B). split; [apply length_concat_repeat | apply concat_repeat_periodic].
  - intros H2. unfold data_repeats_exactly_n_times.
    rewrite py_mod_pos by exact Hn. simpl.
    rewrite length_app, length_concat_repeat. simpl.
    replace (n * length B + 1) with (1 + length B * n) by lia.
    rewrite Nat.Div0.mod_add, Nat.mod_small by lia. reflexivity.
  - intros ->.
    apply (decides_true _ _ (data_repeats_exactly_n_times_spec _ 1 (Nat.le_refl 1))).
    apply repeats_n_one.
Qed.

Lemma exact_repeat_of_block_witness :
  data_repeats_exactly_n_times (concat (repeat [x41; x42] 3)) 3 = Ok true /\
  (2 <= 3 -> data_repeats_exactly_n_times (concat (repeat [x41; x42] 3) ++ [x31]) 3 = Ok false) /\
  (3 = 1 -> data_repeats_exactly_n_times (concat (repeat [x41; x42] 3) ++ [x31]) 3 = Ok true).
Proof.
  apply (exact_repeat_of_block 3 [x41; x42] x31); [lia | discriminate].
Defined.

(** C8. A width returned by [data_repeats] is at least 1 and at most
    [len(data) - 1]; it is neither 0 nor [len(data)]. *)
Theorem data_repeats_width_in_range (data : bytes) (W : nat) :
  data_repeats data = Ok (Found W) ->
  1 <= W <= length data - 1 /\ W <> 0 /\ W <> length data.
Proof.
  intros H. apply data_repeats_found_sound in H. lia.
Qed.

(** C9. [data_repeats] returns [NotFound] for the empty buffer and for every
    single-byte buffer, and it returns, without raising, for every buffer. *)
Theorem data_repeats_never_raises (data : bytes) :
  (length data < 2 -> data_repeats data = Ok NotFound) /\
  exists r, data_repeats data = Ok r.
Proof.
  split.
  - apply data_repeats_short.
  - apply data_repeats_returns.
Qed.

(** C10. For [1 <= s < len(data)], the comparison [data[-s:] == data[:s]]
    that the tail scanner makes has the same outcome as
    [data_repeats_with_width(data, len(data) - s)]. *)
Theorem tail_comparison_iff_width_check (data : bytes) (s : nat) :
  1 <= s < length data ->
  (bytes_eqb (slice_last data s) (slice_to data s) = true <->
   data_repeats_with_width data (length data - s) = Ok true) /\
  (bytes_eqb (slice_last data s) (slice_to data s) = false <->
   data_repeats_with_width data (length data - s) = Ok false).
Proof.
  intros Hs.
  assert (Hb : in_bounds data (length data - s)) by (unfold in_bounds; lia).
  pose proof (border_iff data s ltac:(lia)) as Hborder.
  split.
  - rewrite bytes_eqb_eq, Hborder. symmetry. apply (repeats_at_iff data _ Hb).
  - rewrite bytes_eqb_neq, Hborder. symmetry. apply (fails_at_iff data _ Hb).
Qed.

(** ** A block followed by a proper prefix of itself *)

Lemma core_plus_prefix_periodic (core : bytes) (r : nat) :
  periodic (length core) (core ++ slice_to core r).
Proof.
  intros i Hi. unfold slice_to in *. rewrite length_app, length_firstn in Hi.
  rewrite nth_error_app1 by lia.
  rewrite nth_error_app2 by lia.
  replace (i + length core - length core) with i by lia.
  rewrite nth_error_firstn.
  destruct (Nat.ltb_spec i r); [reflexivity | lia].
Qed.

Lemma seq_increasing (a n : nat) : StronglySorted lt (seq a n).
Proof.
  rewrite <- (filter_true (seq a n)). apply filter_seq_increasing.
Qed.

Lemma filter_length_le (f : nat -> bool) (l : list nat) :
  length (filter f l) <= length l.
Proof.
  induction l as [ | x l IH]; simpl; [lia | ].
  destruct (f x); simpl; lia.
Qed.

Lemma tail_fallback_found (data : bytes) (w : nat) :
  tail_fallback data = Found w -> check_for_minimal_repeat_at_end data = Some w.
Proof.
  unfold tail_fallback.
  destruct (check_for_minimal_repeat_at_end data) as [w' | ]; [ | discriminate].
  destruct (w' =? 0); [discriminate | ]. intros E. injection E as ->. reflexivity.
Qed.

(** C7, as stated, fails: for the core [AA] and [r = 1] the buffer is [AAA],
    three bytes long, and the brute-force loop returns width 1, not 2. *)
Lemma doubled_byte_core_found_at_width_one :
  2 <= length [x41; x41] <= SEARCH_BLOCK_SIZE /\
  1 <= 1 < length [x41; x41] /\
  data_repeats ([x41; x41] ++ slice_to [x41; x41] 1) = Ok (Found 1) /\
  data_repeats ([x41; x41] ++ slice_to [x41; x41] 1) <> Ok (Found (length [x41; x41])) /\
  brute_force ([x41; x41] ++ slice_to [x41; x41] 1) (range 1 3) = Ok (Some 1).
Proof.
  split; [vm_compute; lia | ]. split; [vm_compute; lia | ].
  split; [vm_compute; reflexivity | ]. split; [vm_compute; discriminate | ].
  vm_compute. reflexivity.
Qed.

(** C7, amended.  Let [core_data] have between 2 and [K] bytes, let
    [1 <= r < len(core_data)], and let [core_data + core_data[:r]] repeat at no
    width smaller than [len(core_data)].  Then [data_repeats] returns
    [len(core_data)].  When the buffer is longer than [K], every offset the
    generator yields fails and the width comes from
    [check_for_minimal_repeat_at_end]; when the buffer has at most [K] bytes,
    the width comes from the brute-force loop. *)
Theorem core_plus_prefix_found (core_data : bytes) (r : nat) :
  2 <= length core_data <= SEARCH_BLOCK_SIZE ->
  1 <= r < length core_data ->
  Forall (fun w => data_repeats_with_width (core_data ++ slice_to core_data r) w = Ok false)
         (range 1 (length core_data)) ->
  data_repeats (core_data ++ slice_to core_data r) = Ok (Found (length core_data)) /\
  (SEARCH_BLOCK_SIZE < length (core_data ++ slice_to core_data r) ->
   exists offsets,
     find_possible_repeat_widths (core_data ++ slice_to core_data r) = Ok offsets /\
     generator_search MAXIMUM_WIDTH_ATTEMPTS (core_data ++ slice_to core_data r) offsets 0
       = Ok None /\
     check_for_minimal_repeat_at_end (core_data ++ slice_to core_data r)
       = Some (length core_data)) /\
  (length (core_data ++ slice_to core_data r) <= SEARCH_BLOCK_SIZE ->
   brute_force (core_data ++ slice_to core_data r)
               (range 1 (length (core_data ++ slice_to core_data r)))
     = Ok (Some (length core_data))).
Proof.
  intros Hc Hr Hsmaller. pose proof search_block_size_eq as HK.
  set (data := core_data ++ slice_to core_data r) in *.
  assert (Hlen : length data = length core_data + r).
  { unfold data, slice_to. rewrite length_app, length_firstn. lia. }
  pose proof (core_plus_prefix_periodic core_data r) as Hp. fold data in Hp.
  assert (Hrep : repeats_at data (length core_data)).
  { apply repeats_at_iff; [unfold in_bounds; lia | exact Hp]. }
  assert (Hsm : forall w, 1 <= w < length core_data -> fails_at data w).
  { intros w Hw. rewrite Forall_forall in Hsmaller. apply Hsmaller, in_range. lia. }
  assert (Hbrute : length data <= SEARCH_BLOCK_SIZE ->
                   brute_force data (range 1 (length data)) = Ok (Some (length core_data))).
  { intros Hsmall.
    pose proof (brute_force_spec data _ (range_in_bounds data)) as Hbf.
    assert (Hin : In (length core_data) (range 1 (length data))) by (apply in_range; lia).
    destruct (brute_force data (range 1 (length data))) as [[o | ] | | ];
      try contradiction.
    - destruct Hbf as [l1 [l2 [E [Hl1 Ho]]]]. do 2 f_equal.
      destruct (Nat.lt_trichotomy o (length core_data)) as [Hlt | [Heq | Hgt]];
        [exfalso | exact Heq | exfalso].
      + assert (Hino : In o (range 1 (length data))).
        { rewrite E. apply in_elt. }
        apply in_range in Hino.
        apply (repeats_fails_exclusive data o Ho), Hsm. lia.
      + assert (Hbefore : In (length core_data) l1).
        { apply (sorted_before l1 l2 o); [ | | exact Hgt].
          - rewrite <- E. apply seq_increasing.
          - rewrite <- E. exact Hin. }
        rewrite Forall_forall in Hl1.
        apply (repeats_fails_exclusive data _ Hrep), Hl1, Hbefore.
    - exfalso. rewrite Forall_forall in Hbf.
      apply (repeats_fails_exclusive data _ Hrep), Hbf, Hin. }
  assert (Htail : SEARCH_BLOCK_SIZE < length data ->
                  generator_search MAXIMUM_WIDTH_ATTEMPTS data
                    (anchor_offsets data (slice_to data SEARCH_BLOCK_SIZE) 0) 0 = Ok None /\
                  tail_fallback data = Found (length core_data)).
  { intros Hlarge.
    set (offsets := anchor_offsets data (slice_to data SEARCH_BLOCK_SIZE) 0).
    assert (Hfail : Forall (fails_at data) offsets).
    { apply Forall_forall. intros o Ho.
      apply in_anchor_offsets in Ho; [ | exact Hlarge]. apply Hsm. lia. }
    assert (Hcount : length offsets <= 31).
    { unfold offsets, anchor_offsets.
      etransitivity; [apply filter_length_le | ]. rewrite length_seq.
      unfold slice_to. rewrite length_firstn. lia. }
    pose proof (generator_search_spec MAXIMUM_WIDTH_ATTEMPTS data offsets
                  (anchor_offsets_in_bounds data Hlarge) 0) as Hgs.
    split.
    - destruct (generator_search MAXIMUM_WIDTH_ATTEMPTS data offsets 0)
        as [[[o | | ] | ] | | ]; try contradiction; [ | | reflexivity]; exfalso.
      + destruct Hgs as [l1 [l2 [E [_ Ho]]]].
        rewrite Forall_forall in Hfail.
        apply (repeats_fails_exclusive data o Ho), Hfail.
        rewrite E. apply in_elt.
      + destruct Hgs as [m [Em [_ [Hle _]]]].
        injection Em as <-. rewrite Nat.sub_0_r in Hle.
        assert (Hbig : 32 <= 1024) by (apply Nat.leb_le; reflexivity).
        lia.
    - pose proof (tail_fallback_spec data) as Ht.
      assert (Hborder : slice_last data r = slice_to data r).
      { apply border_iff; [lia | ].
        replace (length data - r) with (length core_data) by lia. exact Hp. }
      destruct (tail_fallback data) as [w | | ]; [ | | contradiction].
      + destruct Ht as [s [Hs [Hlt [-> [Eb Hmax]]]]]. f_equal.
        destruct (Nat.lt_trichotomy s r) as [Hsr | [Heq | Hrs]]; [exfalso | lia | exfalso].
        * apply (Hmax r); [lia | lia | exact Hborder].
        * assert (Hper : periodic (length data - s) data) by (apply border_iff; [lia | exact Eb]).
          assert (Hb : in_bounds data (length data - s)) by (unfold in_bounds; lia).
          apply (repeats_fails_exclusive data (length data - s)).
          -- apply repeats_at_iff; assumption.
          -- apply Hsm. lia.
      + exfalso. apply (Ht r); [lia | lia | exact Hborder]. }
  split; [ | split].
  - unfold data_repeats.
    destruct (Nat.le_gt_cases (length data) SEARCH_BLOCK_SIZE) as [Hsmall | Hlarge].
    + rewrite data_repeats_small by lia. rewrite (Hbrute Hsmall). reflexivity.
    + rewrite data_repeats_large by exact Hlarge.
      destruct (Htail Hlarge) as [Hgen Htl]. rewrite Hgen. simpl. rewrite Htl. reflexivity.
  - intros Hlarge. destruct (Htail Hlarge) as [Hgen Htl].
    exists (anchor_offsets data (slice_to data SEARCH_BLOCK_SIZE) 0).
    split; [apply find_possible_repeat_widths_eq | ].
    split; [exact Hgen | apply tail_fallback_found, Htl].
  - exact Hbrute.
Qed.

(** Pairwise distinct bytes, as in [bytes(range(core_size))], leave no
    smaller width. *)
Lemma distinct_core_no_smaller_width (core_data : bytes) (r : nat) :
  NoDup core_data ->
  Forall (fun w => data_repeats_with_width (core_data ++ slice_to core_data r) w = Ok false)
         (range 1 (length core_data)).
Proof.
  intros Hnd. apply Forall_forall. intros w Hw. apply in_range in Hw.
  apply fails_at_iff.
  - unfold in_bounds. rewrite length_app. lia.
  - intros Hp. specialize (Hp 0). rewrite length_app in Hp.
    specialize (Hp ltac:(lia)). simpl (0 + w) in Hp.
    rewrite !nth_error_app1 in Hp by lia.
    assert (0 = w); [ | lia].
    apply (proj1 (NoDup_nth_error core_data) Hnd); [lia | exact Hp].
Qed.

(** ** The claims at sample buffers *)

Lemma data_repeats_found_round_trip_witness :
  data_repeats block33_plus_one = Ok (Found 33) /\
  slice block33_plus_one 0 (length block33_plus_one mod 33) =
  slice block33_plus_one (length block33_plus_one - length block33_plus_one mod 33)
        (length block33_plus_one).
Proof.
  assert (H : data_repeats block33_plus_one = Ok (Found 33)) by (vm_compute; reflexivity).
  split; [exact H | ].
  exact (proj1 (proj2 (data_repeats_found_round_trip block33_plus_one 33 H))).
Defined.

Lemma recursive_validator_agrees_witness :
  1 <= 12 /\
  data_repeats_exactly_n_times_recursive (concat (repeat [x41; x42] 12)) 12 =
  data_repeats_exactly_n_times (concat (repeat [x41; x42] 12)) 12.
Proof.
  assert (H : 1 <= 12) by lia.
  split; [exact H | ].
  exact (proj1 (recursive_validator_agrees (concat (repeat [x41; x42] 12)) 12 H)).
Defined.

Lemma data_repeats_minimal_from_anchor_size_witness :
  data_repeats block33_plus_one = Ok (Found 33) /\
  data_repeats_with_width block33_plus_one 32 = Ok false.
Proof.
  assert (H : data_repeats block33_plus_one = Ok (Found 33)) by (vm_compute; reflexivity).
  split; [exact H | ].
  apply (data_repeats_minimal_from_anchor_size block33_plus_one 33 32).
  - vm_compute. lia.
  - exact H.
  - vm_compute. lia.
Defined.

Lemma data_repeats_aborted_iff_witness :
  x00 <> x41 /\ data_repeats (repeat x00 2048 ++ [x41]) = Ok Aborted /\
  SEARCH_BLOCK_SIZE < length block33_plus_one /\
  exists offsets,
    find_possible_repeat_widths block33_plus_one = Ok offsets /\
    (data_repeats block33_plus_one = Ok Aborted <->
     1024 <= length offsets /\
     Forall (fun o => data_repeats_with_width block33_plus_one o = Ok false)
            (firstn 1024 offsets)) /\
    (data_repeats block33_plus_one = Ok Aborted <->
     generator_search MAXIMUM_WIDTH_ATTEMPTS block33_plus_one offsets 0 = Ok (Some Aborted)).
Proof.
  assert (H : x00 <> x41) by discriminate.
  assert (Hlarge : SEARCH_BLOCK_SIZE < length block33_plus_one) by (vm_compute; lia).
  split; [exact H | ].
  split; [exact (proj2 data_repeats_aborted_iff x00 x41 H) | ].
  split; [exact Hlarge | ].
  exact (proj1 data_repeats_aborted_iff block33_plus_one Hlarge).
Defined.

Lemma core_plus_prefix_found_witness :
  data_repeats (bytes_of_range 32 ++ slice_to (bytes_of_range 32) 1) =
  Ok (Found (length (bytes_of_range 32))).
Proof.
  apply (core_plus_prefix_found (bytes_of_range 32) 1).
  - vm_compute. lia.
  - vm_compute. lia.
  - let l := eval vm_compute in (range 1 (length (bytes_of_range 32))) in
    change (range 1 (length (bytes_of_range 32))) with l.
    repeat (constructor; [vm_compute; reflexivity | ]). constructor.
Defined.

Lemma data_repeats_width_in_range_witness :
  data_repeats block33_plus_one = Ok (Found 33) /\
  1 <= 33 <= length block33_plus_one - 1.
Proof.
  assert (H : data_repeats block33_plus_one = Ok (Found 33)) by (vm_compute; reflexivity).
  split; [exact H | ].
  exact (proj1 (data_repeats_width_in_range block33_plus_one 33 H)).
Defined.

Lemma data_repeats_never_raises_witness :
  length [x41] < 2 /\ data_repeats [x41] = Ok NotFound.
Proof.
  assert (H : length [x41] < 2) by (simpl; lia).
  split; [exact H | ].
  exact (proj1 (data_repeats_never_raises [x41]) H).
Defined.

Lemma tail_comparison_iff_width_check_witness :
  1 <= 1 < length block33_plus_one /\
  (bytes_eqb (slice_last block33_plus_one 1) (slice_to block33_plus_one 1) = true <->
   data_repeats_with_width block33_plus_one (length block33_plus_one - 1) = Ok true).
Proof.
  assert (H : 1 <= 1 < length block33_plus_one) by (vm_compute; lia).
  split; [exact H | ].
  exact (proj1 (tail_comparison_iff_width_check block33_plus_one 1 H)).
Defined.

(** * Further properties of the detection functions *)

(** ** The width check *)

(** For a width between 1 and the length of the buffer,
    [data_repeats_with_width] returns without raising, and returns [True]
    exactly when every byte equals the byte [width] positions later. *)
Theorem data_repeats_with_width_iff_shifted_equal (data : bytes) (width : nat) :
  1 <= width <= length data ->
  exists b,
    data_repeats_with_width data width = Ok b /\
    (b = true <->
     forall i, i + width < length data ->
               nth_error data i = nth_error data (i + width)).
Proof.
  intros H. exact (data_repeats_with_width_spec data width H).
Qed.

Lemma data_repeats_with_width_iff_shifted_equal_witness :
  1 <= 8 <= length [x41; x42; x43; x44; x45; x46; x47; x48; x41; x42; x43; x44] /\
  exists b,
    data_repeats_with_width
      [x41; x42; x43; x44; x45; x46; x47; x48; x41; x42; x43; x44] 8 = Ok b /\
    (b = true <->
     forall i,
       i + 8 < length [x41; x42; x43; x44; x45; x46; x47; x48; x41; x42; x43; x44] ->
       nth_error [x41; x42; x43; x44; x45; x46; x47; x48; x41; x42; x43; x44] i =
       nth_error [x41; x42; x43; x44; x45; x46; x47; x48; x41; x42; x43; x44] (i + 8)).
Proof.
  assert (H : 1 <= 8 <= length [x41; x42; x43; x44; x45; x46; x47; x48; x41; x42; x43; x44])
    by (simpl; lia).
  split; [exact H | ].
  exact (data_repeats_with_width_iff_shifted_equal _ 8 H).
Defined.

Lemma nth_error_block_cycle (B : bytes) (k r i : nat) :
  0 < length B -> r <= length B ->
  nth_error (concat (repeat B k) ++ slice_to B r) i =
  if i <? k * length B + r then nth_error B (i mod length B) else None.
Proof.
  intros HB Hr. unfold slice_to. rewrite nth_error_app, length_concat_repeat.
  destruct (Nat.ltb_spec i (k * length B)) as [Hi | Hi].
  - rewrite nth_error_concat_repeat by exact HB.
    destruct (Nat.ltb_spec i (k * length B)); [ | lia].
    destruct (Nat.ltb_spec i (k * length B + r)); [reflexivity | lia].
  - rewrite nth_error_firstn.
    destruct (Nat.ltb_spec (i - k * length B) r), (Nat.ltb_spec i (k * length B + r));
      try lia; [ | reflexivity].
    f_equal. replace i with (i - k * length B + k * length B) at 2 by lia.
    rewrite Nat.Div0.mod_add. symmetry. apply Nat.mod_small. lia.
Qed.

Lemma block_cycle_periodic (B : bytes) (k r : nat) :
  0 < length B -> r <= length B ->
  periodic (length B) (concat (repeat B k) ++ slice_to B r).
Proof.
  intros HB Hr i Hi.
  assert (Hlen : length (concat (repeat B k) ++ slice_to B r) = k * length B + r).
  { unfold slice_to. rewrite length_app, length_concat_repeat, length_firstn. lia. }
  rewrite Hlen in Hi. rewrite !nth_error_block_cycle by assumption.
  destruct (Nat.ltb_spec i (k * length B + r)); [ | lia].
  destruct (Nat.ltb_spec (i + length B) (k * length B + r)); [ | lia].
  f_equal. replace (i + length B) with (i + 1 * length B) by lia.
  symmetry. apply Nat.Div0.mod_add.
Qed.

(** A non-empty block repeated [k >= 1] times and followed by a proper prefix
    of itself passes the width check at the length of the block. *)
Theorem data_repeats_with_width_of_repeated_block (B : bytes) (k r : nat) :
  B <> [] -> 1 <= k -> r < length B ->
  data_repeats_with_width (concat (repeat B k) ++ slice_to B r) (length B) = Ok true.
Proof.
  intros HB Hk Hr.
  assert (HB' : 0 < length B) by (destruct B; [contradiction | simpl; lia]).
  apply repeats_at_iff.
  - unfold in_bounds, slice_to.
    rewrite length_app, length_concat_repeat, length_firstn. nia.
  - apply block_cycle_periodic; lia.
Qed.

Lemma data_repeats_with_width_of_repeated_block_witness :
  data_repeats_with_width (concat (repeat [x41; x42; x43] 2) ++ slice_to [x41; x42; x43] 2)
                          (length [x41; x42; x43]) = Ok true.
Proof.
  apply (data_repeats_with_width_of_repeated_block [x41; x42; x43] 2 2).
  - discriminate.
  - lia.
  - simpl. lia.
Defined.

(** ** The exact-repeat validator *)

(** One step of the factorized validator: a buffer is [p * m] equal chunks
    exactly when it is [p] equal chunks and the first of them is [m] equal
    chunks. *)
Theorem exact_repeat_factor_step (data : bytes) (p m : nat) :
  1 <= p -> 1 <= m ->
  data_repeats_exactly_n_times data (p * m) = Ok true <->
  data_repeats_exactly_n_times data p = Ok true /\
  data_repeats_exactly_n_times (slice_to data (length data / p)) m = Ok true.
Proof.
  intros Hp Hm.
  rewrite (decides_true _ _ (data_repeats_exactly_n_times_spec data (p * m) ltac:(nia))).
  rewrite (decides_true _ _ (data_repeats_exactly_n_times_spec data p Hp)).
  rewrite (decides_true _ _ (data_repeats_exactly_n_times_spec _ m Hm)).
  apply repeats_n_mul; assumption.
Qed.

Lemma exact_repeat_factor_step_witness :
  data_repeats_exactly_n_times (concat (repeat [x41; x42] 6)) (2 * 3) = Ok true <->
  data_repeats_exactly_n_times (concat (repeat [x41; x42] 6)) 2 = Ok true /\
  data_repeats_exactly_n_times
    (slice_to (concat (repeat [x41; x42] 6)) (length (concat (repeat [x41; x42] 6)) / 2)) 3
    = Ok true.
Proof.
  apply (exact_repeat_factor_step (concat (repeat [x41; x42] 6)) 2 3); lia.
Defined.

(** For [n >= 1], [data_repeats_exactly_n_times] returns [True] exactly when
    the buffer is its first [len(data) / n] bytes written [n] times. *)
Theorem exact_repeat_iff_block_power (data : bytes) (n : nat) :
  1 <= n ->
  data_repeats_exactly_n_times data n = Ok true <->
  data = concat (repeat (slice_to data (length data / n)) n).
Proof.
  intros Hn.
  rewrite (decides_true _ _ (data_repeats_exactly_n_times_spec data n Hn)).
  split.
  - intros [c [Hlen Hp]].
    assert (Hdiv : length data / n = c).
    { rewrite Hlen, Nat.mul_comm, Nat.div_mul by lia. reflexivity. }
    rewrite Hdiv.
    destruct (Nat.eq_0_gt_0_cases c) as [Hz | Hc].
    + assert (Hnil : length data = 0) by (rewrite Hlen, Hz; lia).
      apply length_zero_iff_nil in Hnil.
      rewrite Hnil. clear. induction n as [ | n IH]; simpl; [reflexivity | ].
      unfold slice_to in *. rewrite firstn_nil in *. exact IH.
    + pose proof (periodic_reconstructs data c n ltac:(nia) Hp ltac:(lia)) as E.
      unfold slice_to in E at 1. rewrite firstn_all2 in E; [symmetry; exact E | ].
      rewrite length_concat_repeat. unfold slice_to. rewrite length_firstn. nia.
  - intros E. set (B := slice_to data (length data / n)) in *.
    exists (length B). split.
    + rewrite E at 1. apply length_concat_repeat.
    + rewrite E. apply concat_repeat_periodic.
Qed.

Lemma exact_repeat_iff_block_power_witness :
  data_repeats_exactly_n_times (concat (repeat [x41; x42] 6)) 3 = Ok true <->
  concat (repeat [x41; x42] 6) =
  concat (repeat (slice_to (concat (repeat [x41; x42] 6))
                           (length (concat (repeat [x41; x42] 6)) / 3)) 3).
Proof.
  apply (exact_repeat_iff_block_power (concat (repeat [x41; x42] 6)) 3). lia.
Defined.

(** ** The candidate width generator *)

(** A buffer of at most [SEARCH_BLOCK_SIZE] bytes gives the generator nothing
    to yield: the anchor block is the whole buffer, and it cannot occur again
    at a later position. *)
Theorem no_candidates_for_short_buffers (data : bytes) :
  length data <= SEARCH_BLOCK_SIZE ->
  find_possible_repeat_widths data = Ok [].
Proof.
  intros H. rewrite find_possible_repeat_widths_eq. f_equal.
  unfold anchor_offsets, slice_to. rewrite firstn_all2 by exact H.
  replace (length data - length data - 0) with 0 by lia. reflexivity.
Qed.

Lemma no_candidates_for_short_buffers_witness :
  length (bytes_of_range 32) <= SEARCH_BLOCK_SIZE /\
  find_possible_repeat_widths (bytes_of_range 32) = Ok [].
Proof.
  assert (H : length (bytes_of_range 32) <= SEARCH_BLOCK_SIZE) by (vm_compute; lia).
  split; [exact H | ].
  exact (no_candidates_for_short_buffers (bytes_of_range 32) H).
Defined.

(** For a buffer longer than the anchor block, the generator yields exactly
    the positions from 1 on at which the whole anchor block occurs again,
    each of them once. *)
Theorem generator_yields_exactly_the_anchored_positions (data : bytes) :
  SEARCH_BLOCK_SIZE < length data ->
  exists offsets,
    find_possible_repeat_widths data = Ok offsets /\
    NoDup offsets /\
    forall o, In o offsets <->
              1 <= o /\ o + SEARCH_BLOCK_SIZE <= length data /\
              slice data o (o + SEARCH_BLOCK_SIZE) = slice_to data SEARCH_BLOCK_SIZE.
Proof.
  intros Hlarge.
  exists (anchor_offsets data (slice_to data SEARCH_BLOCK_SIZE) 0).
  split; [apply find_possible_repeat_widths_eq | ]. split.
  - apply NoDup_filter, seq_NoDup.
  - intros o. apply in_anchor_offsets, Hlarge.
Qed.

Lemma generator_yields_exactly_the_anchored_positions_witness :
  SEARCH_BLOCK_SIZE < length (cycle_bytes (bytes_of_range 3) 40) /\
  exists offsets,
    find_possible_repeat_widths (cycle_bytes (bytes_of_range 3) 40) = Ok offsets /\
    NoDup offsets /\
    forall o, In o offsets <->
              1 <= o /\ o + SEARCH_BLOCK_SIZE <= length (cycle_bytes (bytes_of_range 3) 40) /\
              slice (cycle_bytes (bytes_of_range 3) 40) o (o + SEARCH_BLOCK_SIZE) =
              slice_to (cycle_bytes (bytes_of_range 3) 40) SEARCH_BLOCK_SIZE.
Proof.
  assert (H : SEARCH_BLOCK_SIZE < length (cycle_bytes (bytes_of_range 3) 40))
    by (vm_compute; lia).
  split; [exact H | ].
  exact (generator_yields_exactly_the_anchored_positions _ H).
Defined.

(** ** The tail-fraction scanner *)

Lemma tail_scanner_spec (data : bytes) :
  match check_for_minimal_repeat_at_end data with
  | Some width =>
      1 <= width < length data /\
      length data - width < SEARCH_BLOCK_SIZE /\
      data_repeats_with_width data width = Ok true /\
      forall w, 1 <= w < width -> length data - w < SEARCH_BLOCK_SIZE ->
                data_repeats_with_width data w = Ok false
  | None =>
      forall w, 1 <= w < length data -> length data - w < SEARCH_BLOCK_SIZE ->
                data_repeats_with_width data w = Ok false
  end.
Proof.
  pose proof search_block_size_eq as HK.
  unfold check_for_minimal_repeat_at_end.
  pose proof (scan_remainder_sizes_spec data (SEARCH_BLOCK_SIZE - 1)) as H.
  assert (Hfail : forall w, 1 <= w < length data ->
                    slice_last data (length data - w) <> slice_to data (length data - w) ->
                    data_repeats_with_width data w = Ok false).
  { intros w Hw Hne. apply fails_at_iff; [unfold in_bounds; lia | ].
    intros Hp. apply Hne. apply border_iff; [lia | ].
    replace (length data - (length data - w)) with w by lia. exact Hp. }
  destruct (scan_remainder_sizes data (range_down (SEARCH_BLOCK_SIZE - 1) 0)) as [width | ].
  - destruct H as [s [Hs [Hlt [-> [Eb Hmax]]]]].
    split; [lia | ]. split; [lia | ]. split.
    + apply repeats_at_iff; [unfold in_bounds; lia | ].
      apply border_iff; [lia | exact Eb].
    + intros w Hw Htail. apply Hfail; [lia | ]. apply Hmax; lia.
  - intros w Hw Htail. apply Hfail; [lia | ]. apply H; lia.
Qed.

(** [check_for_minimal_repeat_at_end] looks at the widths that leave a tail of
    1 to [SEARCH_BLOCK_SIZE - 1] bytes.  What it returns is the smallest of
    those widths that passes the width check (the biggest matching tail), and
    it is never 0; it returns [None] only when none of those widths passes. *)
Theorem check_for_minimal_repeat_at_end_result (data : bytes) :
  match check_for_minimal_repeat_at_end data with
  | Some width =>
      1 <= width < length data /\
      length data - width < SEARCH_BLOCK_SIZE /\
      data_repeats_with_width data width = Ok true /\
      forall w, 1 <= w < width -> length data - w < SEARCH_BLOCK_SIZE ->
                data_repeats_with_width data w = Ok false
  | None =>
      forall w, 1 <= w < length data -> length data - w < SEARCH_BLOCK_SIZE ->
                data_repeats_with_width data w = Ok false
  end.
Proof.
  pose proof (tail_scanner_spec data) as H.
  destruct (check_for_minimal_repeat_at_end data) as [width | ]; exact H.
Qed.

Lemma nodup_not_periodic (data : bytes) (w : nat) :
  NoDup data -> 1 <= w < length data -> ~ periodic w data.
Proof.
  intros Hnd Hw Hp. specialize (Hp 0 ltac:(lia)). simpl (0 + w) in Hp.
  assert (0 = w); [ | lia].
  apply (proj1 (NoDup_nth_error data) Hnd); [lia | exact Hp].
Qed.

Lemma core_plus_prefix_not_periodic (core_data : bytes) (r w : nat) :
  NoDup core_data -> 1 <= w < length core_data ->
  ~ periodic w (core_data ++ slice_to core_data r).
Proof.
  intros Hnd Hw Hp. specialize (Hp 0). rewrite length_app in Hp.
  specialize (Hp ltac:(lia)). simpl (0 + w) in Hp.
  rewrite !nth_error_app1 in Hp by lia.
  assert (0 = w); [ | lia].
  apply (proj1 (NoDup_nth_error core_data) Hnd); [lia | exact Hp].
Qed.

(** The scanner's unit test, for every block: a block of pairwise distinct
    bytes followed by its first [r] bytes, [1 <= r < len(core_data)] and
    [r < SEARCH_BLOCK_SIZE], gives the length of the block. *)
Theorem check_for_minimal_repeat_at_end_of_distinct_core (core_data : bytes) (r : nat) :
  NoDup core_data -> 1 <= r < length core_data -> r < SEARCH_BLOCK_SIZE ->
  check_for_minimal_repeat_at_end (core_data ++ slice_to core_data r)
  = Some (length core_data).
Proof.
  intros Hnd Hr HrK.
  set (data := core_data ++ slice_to core_data r).
  assert (Hlen : length data = length core_data + r).
  { unfold data, slice_to. rewrite length_app, length_firstn. lia. }
  assert (Hrep : data_repeats_with_width data (length core_data) = Ok true).
  { apply repeats_at_iff; [unfold in_bounds; lia | apply core_plus_prefix_periodic]. }
  pose proof (tail_scanner_spec data) as H.
  destruct (check_for_minimal_repeat_at_end data) as [width | ].
  - destruct H as [Hw [Htail [Hpass Hmin]]]. f_equal.
    destruct (Nat.lt_trichotomy width (length core_data)) as [Hlt | [Heq | Hgt]];
      [exfalso | exact Heq | exfalso].
    + apply (core_plus_prefix_not_periodic core_data r width Hnd ltac:(lia)).
      apply (repeats_at_iff data width); [unfold in_bounds; lia | exact Hpass].
    + specialize (Hmin (length core_data) ltac:(lia) ltac:(lia)).
      rewrite Hrep in Hmin. discriminate.
  - specialize (H (length core_data) ltac:(lia) ltac:(lia)).
    rewrite Hrep in H. discriminate.
Qed.

Lemma check_for_minimal_repeat_at_end_of_distinct_core_witness :
  check_for_minimal_repeat_at_end (bytes_of_range 5 ++ slice_to (bytes_of_range 5) 2)
  = Some (length (bytes_of_range 5)).
Proof.
  apply (check_for_minimal_repeat_at_end_of_distinct_core (bytes_of_range 5) 2).
  - vm_compute. repeat (constructor; [simpl; intuition discriminate | ]). constructor.
  - vm_compute. lia.
  - vm_compute. lia.
Defined.

(** ** The orchestrator *)

Lemma found_width_is_least (limit : option nat) (data : bytes) (W w : nat) :
  data_repeats_with_limit limit data = Ok (Found W) ->
  1 <= w < W ->
  data_repeats_with_width data w = Ok false.
Proof.
  intros H Hw. pose proof search_block_size_eq as HK.
  pose proof (data_repeats_found_sound _ _ _ H) as [HW _].
  assert (Hb : in_bounds data w) by (unfold in_bounds; lia).
  destruct (width_checked data w Hb) as [Hr | Hf]; [exfalso | exact Hf].
  pose proof (proj1 (repeats_at_iff data w Hb) Hr) as Hp.
  destruct (Nat.le_gt_cases (length data) SEARCH_BLOCK_SIZE) as [Hsmall | Hlarge].
  - rewrite data_repeats_small in H by lia.
    pose proof (brute_force_spec data _ (range_in_bounds data)) as Hbf.
    destruct (brute_force data (range 1 (length data))) as [[o | ] | | ];
      simpl in H; try discriminate. injection H as ->.
    destruct Hbf as [l1 [l2 [E [Hl1 _]]]].
    assert (Hin : In w l1).
    { apply (sorted_before l1 l2 W w); [ | | lia].
      - rewrite <- E. apply seq_increasing.
      - rewrite <- E. apply in_range. lia. }
    rewrite Forall_forall in Hl1. apply (repeats_fails_exclusive data w Hr), Hl1, Hin.
  - rewrite data_repeats_large in H by exact Hlarge.
    pose proof (generator_search_spec limit data _
                  (anchor_offsets_in_bounds data Hlarge) 0) as Hgs.
    assert (Hanch : w + SEARCH_BLOCK_SIZE <= length data ->
                    In w (anchor_offsets data (slice_to data SEARCH_BLOCK_SIZE) 0)).
    { intros Hfit. apply in_anchor_offsets; [exact Hlarge | ].
      repeat split; [lia | exact Hfit | apply periodic_anchored; assumption]. }
    destruct (generator_search limit data _ 0) as [[[o | | ] | ] | | ];
      simpl in H; try discriminate; try contradiction.
    + injection H as ->. destruct Hgs as [l1 [l2 [E [Hl1 _]]]].
      assert (HinW : In W (anchor_offsets data (slice_to data SEARCH_BLOCK_SIZE) 0)).
      { rewrite E. apply in_elt. }
      apply in_anchor_offsets in HinW; [ | exact Hlarge].
      assert (Hin : In w l1).
      { apply (sorted_before l1 l2 W w); [ | | lia].
        - rewrite <- E. apply filter_seq_increasing.
        - rewrite <- E. apply Hanch. lia. }
      rewrite Forall_forall in Hl1. apply (repeats_fails_exclusive data w Hr), Hl1, Hin.
    + injection H as H. pose proof (tail_fallback_spec data) as Ht.
      rewrite H in Ht. destruct Ht as [s [Hs [Hlt [-> [_ Hmax]]]]].
      destruct (Nat.le_gt_cases (w + SEARCH_BLOCK_SIZE) (length data)) as [Hfit | Hnofit].
      * rewrite Forall_forall in Hgs.
        apply (repeats_fails_exclusive data w Hr), Hgs, Hanch, Hfit.
      * apply (Hmax (length data - w)); [lia | lia | ].
        apply border_iff; [lia | ].
        replace (length data - (length data - w)) with w by lia. exact Hp.
Qed.

(** Whatever the attempt limit, a width returned by the search is the
    smallest width at which the buffer repeats: every smaller width fails the
    width check.  This holds on all three paths, also for widths below the
    anchor size. *)
Theorem data_repeats_returns_least_width
        (limit : option nat) (data : bytes) (W w : nat) :
  data_repeats_with_limit limit data = Ok (Found W) ->
  1 <= w < W ->
  data_repeats_with_width data w = Ok false.
Proof.
  intros H Hw. apply (found_width_is_least limit data W w); assumption.
Qed.

Lemma data_repeats_returns_least_width_witness :
  data_repeats_with_limit MAXIMUM_WIDTH_ATTEMPTS (cycle_bytes (bytes_of_range 3) 40)
    = Ok (Found 3) /\
  data_repeats_with_width (cycle_bytes (bytes_of_range 3) 40) 2 = Ok false.
Proof.
  assert (H : data_repeats_with_limit MAXIMUM_WIDTH_ATTEMPTS
                (cycle_bytes (bytes_of_range 3) 40) = Ok (Found 3))
    by (vm_compute; reflexivity).
  split; [exact H | ].
  apply (data_repeats_returns_least_width _ _ 3 2 H). lia.
Defined.

(** [NotFound] is a definite answer: it is returned only when no width from 1
    to [len(data) - 1] passes the width check. *)
Lemma data_repeats_not_found_complete (limit : option nat) (data : bytes) (w : nat) :
  data_repeats_with_limit limit data = Ok NotFound ->
  1 <= w < length data ->
  data_repeats_with_width data w = Ok false.
Proof.
  intros H Hw. pose proof search_block_size_eq as HK.
  assert (Hb : in_bounds data w) by (unfold in_bounds; lia).
  destruct (width_checked data w Hb) as [Hr | Hf]; [exfalso | exact Hf].
  pose proof (proj1 (repeats_at_iff data w Hb) Hr) as Hp.
  destruct (Nat.le_gt_cases (length data) SEARCH_BLOCK_SIZE) as [Hsmall | Hlarge].
  - rewrite data_repeats_small in H by lia.
    pose proof (brute_force_spec data _ (range_in_bounds data)) as Hbf.
    destruct (brute_force data (range 1 (length data))) as [[o | ] | | ];
      simpl in H; try discriminate.
    rewrite Forall_forall in Hbf.
    apply (repeats_fails_exclusive data w Hr), Hbf, in_range. lia.
  - rewrite data_repeats_large in H by exact Hlarge.
    pose proof (generator_search_spec limit data _
                  (anchor_offsets_in_bounds data Hlarge) 0) as Hgs.
    destruct (generator_search limit data _ 0) as [[[o | | ] | ] | | ];
      simpl in H; try discriminate; try contradiction.
    injection H as H. pose proof (tail_fallback_spec data) as Ht. rewrite H in Ht.
    destruct (Nat.le_gt_cases (w + SEARCH_BLOCK_SIZE) (length data)) as [Hfit | Hnofit].
    + rewrite Forall_forall in Hgs.
      apply (repeats_fails_exclusive data w Hr), Hgs.
      apply in_anchor_offsets; [exact Hlarge | ].
      repeat split; [lia | exact Hfit | apply periodic_anchored; assumption].
    + apply (Ht (length data - w)); [lia | lia | ].
      apply border_iff; [lia | ].
      replace (length data - (length data - w)) with w by lia. exact Hp.
Qed.

(** When the buffer repeats at some width [w] with [1 <= w < len(data)], the
    search either returns a width, which is at most [w], or aborts; it does
    not answer [NotFound]. *)
Theorem data_repeats_finds_existing_width
        (limit : option nat) (data : bytes) (w : nat) :
  1 <= w < length data ->
  data_repeats_with_width data w = Ok true ->
  (exists W, W <= w /\ data_repeats_with_limit limit data = Ok (Found W)) \/
  data_repeats_with_limit limit data = Ok Aborted.
Proof.
  intros Hw Hr. destruct (data_repeats_returns limit data) as [[W | | ] H].
  - left. exists W. split; [ | exact H].
    destruct (Nat.le_gt_cases W w) as [Hle | Hgt]; [exact Hle | exfalso].
    pose proof (found_width_is_least limit data W w H ltac:(lia)) as Hf.
    rewrite Hr in Hf. discriminate.
  - exfalso. pose proof (data_repeats_not_found_complete limit data w H Hw) as Hf.
    rewrite Hr in Hf. discriminate.
  - right. exact H.
Qed.

Lemma data_repeats_finds_existing_width_witness :
  data_repeats_with_width (cycle_bytes (bytes_of_range 3) 40) 6 = Ok true /\
  ((exists W, W <= 6 /\
              data_repeats_with_limit MAXIMUM_WIDTH_ATTEMPTS
                (cycle_bytes (bytes_of_range 3) 40) = Ok (Found W)) \/
   data_repeats_with_limit MAXIMUM_WIDTH_ATTEMPTS (cycle_bytes (bytes_of_range 3) 40)
   = Ok Aborted).
Proof.
  assert (H : data_repeats_with_width (cycle_bytes (bytes_of_range 3) 40) 6 = Ok true)
    by (vm_compute; reflexivity).
  split; [exact H | ].
  apply (data_repeats_finds_existing_width MAXIMUM_WIDTH_ATTEMPTS _ 6);
    [vm_compute; lia | exact H].
Defined.

Lemma data_repeats_aborted_inv (limit : option nat) (data : bytes) :
  data_repeats_with_limit limit data = Ok Aborted ->
  SEARCH_BLOCK_SIZE < length data /\
  exists m, limit = Some m /\
            1 <= m <= length (anchor_offsets data (slice_to data SEARCH_BLOCK_SIZE) 0) /\
            Forall (fails_at data)
                   (firstn m (anchor_offsets data (slice_to data SEARCH_BLOCK_SIZE) 0)).
Proof.
  intros H.
  destruct (Nat.lt_ge_cases (length data) 2) as [Hshort | Hlong].
  { rewrite data_repeats_short in H by exact Hshort. discriminate. }
  destruct (Nat.le_gt_cases (length data) SEARCH_BLOCK_SIZE) as [Hsmall | Hlarge].
  - rewrite data_repeats_small in H by lia.
    destruct (brute_force data (range 1 (length data))) as [[o | ] | | ];
      simpl in H; discriminate.
  - split; [exact Hlarge | ].
    rewrite data_repeats_large in H by exact Hlarge.
    pose proof (generator_search_spec limit data _
                  (anchor_offsets_in_bounds data Hlarge) 0) as Hgs.
    destruct (generator_search limit data _ 0) as [[[o | | ] | ] | | ];
      simpl in H; try discriminate; try contradiction.
    + destruct Hgs as [m [Em [Hlt [Hle Hall]]]]. rewrite Nat.sub_0_r in *.
      exists m. repeat split; try assumption; lia.
    + injection H as H. exfalso. apply (tail_fallback_not_aborted data H).
Qed.

(** An aborted search has met an anchored offset that fails the width
    check. *)
Lemma aborted_first_offset (limit : option nat) (data : bytes) :
  data_repeats_with_limit limit data = Ok Aborted ->
  exists o, 1 <= o /\ o + SEARCH_BLOCK_SIZE <= length data /\
            slice data o (o + SEARCH_BLOCK_SIZE) = slice_to data SEARCH_BLOCK_SIZE /\
            fails_at data o.
Proof.
  intros H. apply data_repeats_aborted_inv in H.
  destruct H as [Hlarge [m [_ [Hm Hall]]]].
  destruct (anchor_offsets data (slice_to data SEARCH_BLOCK_SIZE) 0) as [ | o rest] eqn:E.
  { simpl in Hm. lia. }
  assert (Hin : In o (anchor_offsets data (slice_to data SEARCH_BLOCK_SIZE) 0)).
  { rewrite E. left. reflexivity. }
  apply in_anchor_offsets in Hin; [ | exact Hlarge].
  destruct Hin as [Ho [Hfit Hanch]]. exists o. repeat split; try assumption.
  destruct m as [ | m]; [lia | ]. simpl in Hall. inversion Hall. assumption.
Qed.

(** With the attempt limit disabled (the driver's [--force] rebinding of
    [MAXIMUM_WIDTH_ATTEMPTS] to [None]) the search never aborts, and it
    answers [NotFound] exactly when no width from 1 to [len(data) - 1] passes
    the width check. *)
Theorem unlimited_search_decides (data : bytes) :
  data_repeats_with_limit None data <> Ok Aborted /\
  (data_repeats_with_limit None data = Ok NotFound <->
   forall w, 1 <= w < length data -> data_repeats_with_width data w = Ok false).
Proof.
  assert (Hna : data_repeats_with_limit None data <> Ok Aborted).
  { intros H. apply data_repeats_aborted_inv in H.
    destruct H as [_ [m [Em _]]]. discriminate. }
  split; [exact Hna | ]. split.
  - intros H w Hw. apply (data_repeats_not_found_complete None data w H Hw).
  - intros Hall. destruct (data_repeats_returns None data) as [[W | | ] H].
    + exfalso. pose proof (data_repeats_found_sound _ _ _ H) as [HW Hp].
      specialize (Hall W HW).
      assert (Hr : repeats_at data W).
      { apply repeats_at_iff; [unfold in_bounds; lia | exact Hp]. }
      apply (repeats_fails_exclusive data W Hr Hall).
    + exact H.
    + contradiction.
Qed.

Lemma generator_search_without_limit (limit : option nat) (data : bytes)
      (offsets : list nat) :
  forall attempts attempts' hit,
  generator_search limit data offsets attempts = Ok hit ->
  hit <> Some Aborted ->
  generator_search None data offsets attempts' = Ok hit.
Proof.
  induction offsets as [ | o rest IH]; intros attempts attempts' hit H Hna; simpl in *.
  - exact H.
  - destruct (data_repeats_with_width data o) as [[ | ] | | ]; simpl in *;
      try discriminate; [exact H | ].
    destruct (attempts_reached (attempts + 1) limit).
    + injection H as <-. contradiction.
    + apply (IH (attempts + 1)); assumption.
Qed.

(** The attempt limit changes the result only by aborting: a search that
    returns a width or [NotFound] under some limit returns the same without a
    limit. *)
Theorem limit_only_aborts (limit : option nat) (data : bytes) (r : Result) :
  data_repeats_with_limit limit data = Ok r ->
  r <> Aborted ->
  data_repeats_with_limit None data = Ok r.
Proof.
  unfold data_repeats_with_limit. intros H Hna.
  destruct (length data <? 2); [exact H | ].
  destruct (length data <=? SEARCH_BLOCK_SIZE); [exact H | ].
  destruct (find_possible_repeat_widths data) as [offsets | | ]; simpl in *;
    try discriminate.
  destruct (generator_search limit data offsets 0) as [hit | | ] eqn:E; simpl in H;
    try discriminate.
  rewrite (generator_search_without_limit limit data offsets 0 0 hit E).
  - exact H.
  - intros ->. injection H as <-. contradiction.
Qed.

Lemma limit_only_aborts_witness :
  find_possible_repeat_widths run_and_break_twice = Ok [1; 34; 35] /\
  data_repeats_with_width run_and_break_twice 1 = Ok false /\
  data_repeats_with_limit (Some 1) run_and_break_twice = Ok Aborted /\
  data_repeats_with_limit (Some 2) run_and_break_twice = Ok (Found 34) /\
  Found 34 <> Aborted /\
  data_repeats_with_limit None run_and_break_twice = Ok (Found 34).
Proof.
  assert (H : data_repeats_with_limit (Some 2) run_and_break_twice = Ok (Found 34))
    by (vm_compute; reflexivity).
  assert (Hna : Found 34 <> Aborted) by discriminate.
  split; [vm_compute; reflexivity | ].
  split; [vm_compute; reflexivity | ].
  split; [vm_compute; reflexivity | ].
  split; [exact H | ].
  split; [exact Hna | ].
  exact (limit_only_aborts (Some 2) run_and_break_twice (Found 34) H Hna).
Defined.

(** The default search aborts only on buffers of at least
    [1024 + SEARCH_BLOCK_SIZE] bytes: it needs 1024 candidate offsets, and
    every offset leaves room for an anchor block behind it. *)
Theorem abort_needs_long_buffer (data : bytes) :
  data_repeats data = Ok Aborted ->
  1024 + SEARCH_BLOCK_SIZE <= length data.
Proof.
  intros H. apply data_repeats_aborted_inv in H.
  destruct H as [Hlarge [m [Em [[_ Hm] _]]]].
  injection Em as <-.
  assert (Hcount : length (anchor_offsets data (slice_to data SEARCH_BLOCK_SIZE) 0)
                   <= length data - SEARCH_BLOCK_SIZE).
  { unfold anchor_offsets. etransitivity; [apply filter_length_le | ].
    rewrite length_seq. unfold slice_to. rewrite length_firstn. lia. }
  lia.
Qed.

Lemma abort_needs_long_buffer_witness :
  data_repeats (repeat x00 2048 ++ [x41]) = Ok Aborted /\
  1024 + SEARCH_BLOCK_SIZE <= length (repeat x00 2048 ++ [x41]).
Proof.
  assert (H : data_repeats (repeat x00 2048 ++ [x41]) = Ok Aborted).
  { apply (run_then_break_aborts x00 x41 2048 1024 []);
      [discriminate | | ]; apply Nat.leb_le; reflexivity. }
  split; [exact H | ].
  exact (abort_needs_long_buffer _ H).
Defined.

(** ** Buffers built from pairwise distinct bytes *)

Lemma length_cycle_bytes (core_data : bytes) (n : nat) :
  length (cycle_bytes core_data n) = n.
Proof.
  unfold cycle_bytes, range. rewrite length_map, length_seq. lia.
Qed.

Lemma nth_error_cycle_bytes (core_data : bytes) (n i : nat) :
  0 < length core_data -> i < n ->
  nth_error (cycle_bytes core_data n) i = nth_error core_data (i mod length core_data).
Proof.
  intros Hc Hi. unfold cycle_bytes, range.
  rewrite nth_error_map, nth_error_seq.
  destruct (Nat.ltb_spec i (n - 0)); [ | lia]. simpl.
  symmetry. apply nth_error_nth'. apply Nat.mod_upper_bound. lia.
Qed.

Lemma cycle_bytes_periodic (core_data : bytes) (n k : nat) :
  0 < length core_data ->
  periodic (k * length core_data) (cycle_bytes core_data n).
Proof.
  intros Hc i Hi. rewrite length_cycle_bytes in Hi.
  rewrite !nth_error_cycle_bytes by lia.
  f_equal. symmetry. apply Nat.Div0.mod_add.
Qed.

(** An anchored position carries the first byte of the buffer. *)
Lemma anchored_first_byte (data : bytes) (o : nat) :
  slice data o (o + SEARCH_BLOCK_SIZE) = slice_to data SEARCH_BLOCK_SIZE ->
  nth_error data o = nth_error data 0.
Proof.
  intros E.
  assert (E' : nth_error (slice data o (o + SEARCH_BLOCK_SIZE)) 0 =
               nth_error (slice_to data SEARCH_BLOCK_SIZE) 0) by (rewrite E; reflexivity).
  unfold slice_to in E'. rewrite nth_error_slice, nth_error_firstn in E'.
  pose proof search_block_size_eq as HK.
  destruct (Nat.ltb_spec (o + 0) (o + SEARCH_BLOCK_SIZE)); [ | lia].
  destruct (Nat.ltb_spec 0 SEARCH_BLOCK_SIZE); [ | lia].
  rewrite Nat.add_0_r in E'. exact E'.
Qed.

(** The orchestrator's unit test, for every block and every length: a block
    of pairwise distinct bytes, cycled to any greater length, is found with
    the length of the block as its width, whatever the attempt limit. *)
Theorem data_repeats_of_cycled_distinct_block
        (limit : option nat) (core_data : bytes) (full_size : nat) :
  NoDup core_data ->
  1 <= length core_data < full_size ->
  data_repeats_with_limit limit (cycle_bytes core_data full_size)
  = Ok (Found (length core_data)).
Proof.
  intros Hnd Hc. set (data := cycle_bytes core_data full_size).
  assert (Hlen : length data = full_size) by apply length_cycle_bytes.
  assert (Hp : periodic (length core_data) data).
  { pose proof (cycle_bytes_periodic core_data full_size 1 ltac:(lia)) as Hp.
    rewrite Nat.mul_1_l in Hp. exact Hp. }
  assert (Hrep : repeats_at data (length core_data)).
  { apply repeats_at_iff; [unfold in_bounds; lia | exact Hp]. }
  assert (Hsmaller : forall w, 1 <= w < length core_data -> ~ periodic w data).
  { intros w Hw Hpw. specialize (Hpw 0 ltac:(lia)). simpl (0 + w) in Hpw.
    unfold data in Hpw. rewrite !nth_error_cycle_bytes in Hpw by lia.
    rewrite Nat.Div0.mod_0_l, Nat.mod_small in Hpw by lia.
    assert (0 = w); [ | lia].
    apply (proj1 (NoDup_nth_error core_data) Hnd); [lia | exact Hpw]. }
  destruct (data_repeats_returns limit data) as [[W | | ] H].
  - rewrite H. do 2 f_equal.
    pose proof (data_repeats_found_sound _ _ _ H) as [HW HpW].
    destruct (Nat.lt_trichotomy W (length core_data)) as [Hlt | [Heq | Hgt]];
      [exfalso | exact Heq | exfalso].
    + apply (Hsmaller W); [lia | exact HpW].
    + apply (repeats_fails_exclusive data _ Hrep).
      apply (found_width_is_least limit data W _ H). lia.
  - exfalso. apply (repeats_fails_exclusive data _ Hrep).
    apply (data_repeats_not_found_complete limit data _ H). lia.
  - exfalso. apply aborted_first_offset in H.
    destruct H as [o [Ho [Hfit [Hanch Hfail]]]].
    pose proof search_block_size_eq as HK.
    apply anchored_first_byte in Hanch. unfold data in Hanch.
    rewrite !nth_error_cycle_bytes in Hanch by lia.
    rewrite Nat.Div0.mod_0_l in Hanch.
    pose proof (Nat.mod_upper_bound o (length core_data) ltac:(lia)) as Hb.
    assert (Hz : o mod length core_data = 0).
    { apply (proj1 (NoDup_nth_error core_data) Hnd); [lia | exact Hanch]. }
    pose proof (Nat.div_mod_eq o (length core_data)) as Eo.
    apply (fun Hr => repeats_fails_exclusive data o Hr Hfail).
    apply repeats_at_iff; [unfold in_bounds; lia | ].
    replace o with (o / length core_data * length core_data) by lia.
    apply cycle_bytes_periodic. lia.
Qed.

Lemma data_repeats_of_cycled_distinct_block_witness :
  data_repeats_with_limit MAXIMUM_WIDTH_ATTEMPTS (cycle_bytes (bytes_of_range 3) 40)
  = Ok (Found (length (bytes_of_range 3))).
Proof.
  apply (data_repeats_of_cycled_distinct_block _ (bytes_of_range 3) 40).
  - vm_compute. repeat (constructor; [simpl; intuition discriminate | ]). constructor.
  - vm_compute. lia.
Defined.

(** A buffer of pairwise distinct bytes has no repetition: the search answers
    [NotFound], whatever the attempt limit. *)
Theorem data_repeats_of_distinct_bytes (limit : option nat) (data : bytes) :
  NoDup data ->
  data_repeats_with_limit limit data = Ok NotFound.
Proof.
  intros Hnd. destruct (data_repeats_returns limit data) as [[W | | ] H].
  - exfalso. pose proof (data_repeats_found_sound _ _ _ H) as [HW Hp].
    apply (nodup_not_periodic data W Hnd HW Hp).
  - exact H.
  - exfalso. apply aborted_first_offset in H.
    destruct H as [o [Ho [Hfit [Hanch _]]]].
    pose proof search_block_size_eq as HK.
    apply anchored_first_byte in Hanch.
    assert (o = 0); [ | lia].
    apply (proj1 (NoDup_nth_error data) Hnd); [lia | exact Hanch].
Qed.

Lemma data_repeats_of_distinct_bytes_witness :
  data_repeats_with_limit MAXIMUM_WIDTH_ATTEMPTS (bytes_of_range 5) = Ok NotFound.
Proof.
  apply (data_repeats_of_distinct_bytes _ (bytes_of_range 5)).
  vm_compute. repeat (constructor; [simpl; intuition discriminate | ]). constructor.
Defined.

(** ** Widths of prefixes, multiples of widths, and brute force *)

(** Cutting bytes off the end keeps a width: when the buffer repeats at
    [width], so does each of its prefixes of at least [width] bytes. *)
Theorem prefix_keeps_width (data : bytes) (width n : nat) :
  1 <= width <= n -> n <= length data ->
  data_repeats_with_width data width = Ok true ->
  data_repeats_with_width (slice_to data n) width = Ok true.
Proof.
  intros Hw Hn Hr.
  assert (Hb : in_bounds data width) by (unfold in_bounds; lia).
  apply repeats_at_iff.
  - unfold in_bounds, slice_to. rewrite length_firstn. lia.
  - apply periodic_firstn. apply (repeats_at_iff data width Hb). exact Hr.
Qed.

Lemma prefix_keeps_width_witness :
  data_repeats_with_width (concat (repeat [x41; x42; x43] 4)) 3 = Ok true /\
  data_repeats_with_width (slice_to (concat (repeat [x41; x42; x43] 4)) 7) 3 = Ok true.
Proof.
  assert (H : data_repeats_with_width (concat (repeat [x41; x42; x43] 4)) 3 = Ok true)
    by (vm_compute; reflexivity).
  split; [exact H | ].
  apply (prefix_keeps_width (concat (repeat [x41; x42; x43] 4)) 3 7);
    [lia | simpl; lia | exact H].
Defined.

(** A buffer that repeats at a width repeats at every multiple of it that
    fits in the buffer. *)
Theorem multiple_of_width_repeats (data : bytes) (width k : nat) :
  1 <= width -> 1 <= k -> k * width <= length data ->
  data_repeats_with_width data width = Ok true ->
  data_repeats_with_width data (k * width) = Ok true.
Proof.
  intros Hw Hk Hfit Hr.
  assert (Hb : in_bounds data width) by (unfold in_bounds; nia).
  apply repeats_at_iff; [unfold in_bounds; nia | ].
  intros i Hi.
  apply (periodic_mul width data (proj1 (repeats_at_iff data width Hb) Hr) k i Hi).
Qed.

Lemma multiple_of_width_repeats_witness :
  data_repeats_with_width (concat (repeat [x41; x42] 6)) 2 = Ok true /\
  data_repeats_with_width (concat (repeat [x41; x42] 6)) (3 * 2) = Ok true.
Proof.
  assert (H : data_repeats_with_width (concat (repeat [x41; x42] 6)) 2 = Ok true)
    by (vm_compute; reflexivity).
  split; [exact H | ].
  apply (multiple_of_width_repeats (concat (repeat [x41; x42] 6)) 2 3);
    [lia | lia | simpl; lia | exact H].
Defined.

(** The anchored search is an optimisation of the brute-force loop: on a
    buffer of any length of at least 2, a search that does not abort returns
    what trying every width from 1 to [len(data) - 1] in turn returns. *)
Theorem search_agrees_with_brute_force
        (limit : option nat) (data : bytes) (r : Result) :
  2 <= length data ->
  data_repeats_with_limit limit data = Ok r ->
  r <> Aborted ->
  brute_force data (range 1 (length data)) =
  Ok (match r with Found W => Some W | _ => None end).
Proof.
  intros Hlen H Hna.
  pose proof (brute_force_spec data _ (range_in_bounds data)) as Hbf.
  destruct (brute_force data (range 1 (length data))) as [[o | ] | | ];
    try contradiction.
  - destruct Hbf as [l1 [l2 [E [Hl1 Ho]]]].
    assert (Hin : In o (range 1 (length data))) by (rewrite E; apply in_elt).
    apply in_range in Hin.
    destruct r as [W | | ]; [ | | contradiction].
    + do 2 f_equal.
      pose proof (data_repeats_found_sound _ _ _ H) as [HW Hp].
      assert (HrW : repeats_at data W).
      { apply repeats_at_iff; [unfold in_bounds; lia | exact Hp]. }
      destruct (Nat.lt_trichotomy o W) as [Hlt | [Heq | Hgt]];
        [exfalso | exact Heq | exfalso].
      * apply (repeats_fails_exclusive data o Ho).
        apply (found_width_is_least limit data W o H). lia.
      * assert (Hbefore : In W l1).
        { apply (sorted_before l1 l2 o W); [ | | exact Hgt].
          - rewrite <- E. apply seq_increasing.
          - rewrite <- E. apply in_range. lia. }
        rewrite Forall_forall in Hl1.
        apply (repeats_fails_exclusive data W HrW), Hl1, Hbefore.
    + exfalso. apply (repeats_fails_exclusive data o Ho).
      apply (data_repeats_not_found_complete limit data o H). lia.
  - destruct r as [W | | ]; [exfalso | reflexivity | contradiction].
    pose proof (data_repeats_found_sound _ _ _ H) as [HW Hp].
    rewrite Forall_forall in Hbf.
    apply (repeats_fails_exclusive data W).
    + apply repeats_at_iff; [unfold in_bounds; lia | exact Hp].
    + apply Hbf, in_range. lia.
Qed.

Lemma search_agrees_with_brute_force_witness :
  data_repeats_with_limit MAXIMUM_WIDTH_ATTEMPTS (cycle_bytes (bytes_of_range 3) 40)
    = Ok (Found 3) /\
  brute_force (cycle_bytes (bytes_of_range 3) 40)
              (range 1 (length (cycle_bytes (bytes_of_range 3) 40)))
    = Ok (Some 3).
Proof.
  assert (H : data_repeats_with_limit MAXIMUM_WIDTH_ATTEMPTS
                (cycle_bytes (bytes_of_range 3) 40) = Ok (Found 3))
    by (vm_compute; reflexivity).
  split; [exact H | ].
  apply (search_agrees_with_brute_force MAXIMUM_WIDTH_ATTEMPTS _ (Found 3)).
  - vm_compute. lia.
  - exact H.
  - discriminate.
Defined.

(** * The plugin *)

(** ** The examples of the plugin's tests *)

Example plugin_single_byte :
  execute (repeat x41 119) =
  Ok (ReturnNone,
      [add_many_feature_values
         (base_features (repeat x41 119) 1 ++ [("rep_byte_data", VStr "A")]%string)]).
Proof. vm_compute. reflexivity. Qed.

Example plugin_multi_byte :
  execute (concat (repeat [x41; xae; x42] 41)) =
  Ok (ReturnNone,
      [add_many_feature_values
         (base_features (concat (repeat [x41; xae; x42] 41)) 3
          ++ [("rep_byte_data", VStr "A\xaeB")]%string)]).
Proof. vm_compute. reflexivity. Qed.

Example plugin_nulls :
  execute (repeat x00 115) =
  Ok (ReturnNone,
      [add_many_feature_values
         (base_features (repeat x00 115) 1 ++ [("rep_byte_data", VStr "\x00")]%string)]).
Proof. vm_compute. reflexivity. Qed.

Example plugin_insignificant_repeats :
  execute (bytes_of_range 100 ++ bytes_of_range 60) = Ok (ReturnDict [], []).
Proof. vm_compute. reflexivity. Qed.

(** ** [repr] and the string feature *)

Lemma length_string_of_list_byte (l : list byte) :
  String.length (String.string_of_list_byte l) = length l.
Proof.
  unfold String.string_of_list_byte.
  induction l as [ | c l IH]; simpl; [reflexivity | ].
  f_equal. exact IH.
Qed.

Lemma substring_prefix (body tail : list byte) :
  String.substring 0 (length body) (String.string_of_list_byte (body ++ tail)) =
  String.string_of_list_byte body.
Proof.
  unfold String.string_of_list_byte.
  induction body as [ | c body IH]; simpl.
  - destruct (String.string_of_list_ascii (map Ascii.ascii_of_byte tail)); reflexivity.
  - f_equal. exact IH.
Qed.

(** Slicing [[2:-1]] removes the [b], the opening quote and the closing
    quote. *)
Lemma preview_eq (deduplicated : bytes) :
  preview deduplicated =
  String.string_of_list_byte
    (flat_map (repr_byte (repr_quote deduplicated)) deduplicated).
Proof.
  unfold preview, str_slice, repr.
  set (body := flat_map (repr_byte (repr_quote deduplicated)) deduplicated).
  rewrite length_string_of_list_byte. simpl length.
  rewrite length_app. simpl length.
  replace (S (S (length body + 1)) - 1 - 2) with (length body) by lia.
  change (String.string_of_list_byte
            (x62 :: repr_quote deduplicated :: body ++ [repr_quote deduplicated]))
    with (String.String (Ascii.ascii_of_byte x62)
            (String.String (Ascii.ascii_of_byte (repr_quote deduplicated))
               (String.string_of_list_byte (body ++ [repr_quote deduplicated])))).
  simpl String.substring. apply substring_prefix.
Qed.

Lemma repr_quote_cases (data : bytes) : repr_quote data = x27 \/ repr_quote data = x22.
Proof.
  unfold repr_quote. destruct (_ && _); [right | left]; reflexivity.
Qed.

Lemma unescape_repr_byte (q c : byte) (rest : list byte) :
  q = x27 \/ q = x22 ->
  unescape (repr_byte q c ++ rest) = c :: unescape rest.
Proof.
  intros [-> | ->]; destruct c; reflexivity.
Qed.

Lemma repr_byte_printable (q c : byte) :
  q = x27 \/ q = x22 -> forallb printable (repr_byte q c) = true.
Proof.
  intros [-> | ->]; destruct c; reflexivity.
Qed.

Lemma repr_byte_length (q c : byte) : 1 <= length (repr_byte q c) <= 4.
Proof.
  unfold repr_byte.
  repeat match goal with
         | |- context [if ?b then _ else _] => destruct b
         end; simpl; lia.
Qed.

Lemma preview_spec (deduplicated : bytes) :
  unescape (String.list_byte_of_string (preview deduplicated)) = deduplicated /\
  forallb printable (String.list_byte_of_string (preview deduplicated)) = true /\
  length deduplicated <= String.length (preview deduplicated) <= 4 * length deduplicated.
Proof.
  rewrite preview_eq, length_string_of_list_byte, String.list_byte_of_string_of_list_byte.
  pose proof (repr_quote_cases deduplicated) as Hq.
  generalize dependent (repr_quote deduplicated). intros q Hq.
  induction deduplicated as [ | c rest IH]; simpl.
  - repeat split; lia.
  - destruct IH as [IHu [IHp IHl]].
    rewrite unescape_repr_byte by exact Hq.
    rewrite forallb_app, repr_byte_printable by exact Hq.
    rewrite length_app. pose proof (repr_byte_length q c) as Hl.
    repeat split; try lia.
    + f_equal. exact IHu.
    + exact IHp.
Qed.

(** The string feature [repr(deduplicated)[2:-1]] is made of printable ASCII
    characters, has between one and four characters per byte, and reading
    its escapes back gives the bytes: two different blocks never get the
    same string. *)
Theorem preview_is_printable_and_reversible (deduplicated : bytes) :
  unescape (String.list_byte_of_string (preview deduplicated)) = deduplicated /\
  forallb printable (String.list_byte_of_string (preview deduplicated)) = true /\
  length deduplicated <= String.length (preview deduplicated) <= 4 * length deduplicated.
Proof.
  destruct (preview_spec deduplicated) as [Hround [Hprint Hlen]].
  split; [exact Hround | ]. split; [exact Hprint | exact Hlen].
Qed.

(** ** [execute], branch by branch *)

Lemma ratio_below_minimum (len w : nat) :
  1 <= w ->
  float_lt (QArith_base.Qmake (BinInt.Z.of_nat len) (BinPos.Pos.of_nat w)) MIN_RATIO
  = (4 * len <? 5 * w).
Proof.
  intros Hw. unfold float_lt, QArith_base.Qle_bool, MIN_RATIO.
  cbn [QArith_base.Qnum QArith_base.Qden].
  rewrite <- !Znat.positive_nat_Z, !Pnat.Nat2Pos.id by lia.
  destruct (Nat.ltb_spec (4 * len) (5 * w)) as [H | H].
  - apply negb_true_iff, BinInt.Z.leb_gt. lia.
  - apply negb_false_iff, BinInt.Z.leb_le. lia.
Qed.

Lemma execute_without_width (sample_data : bytes) (r : Result) :
  data_repeats sample_data = Ok r -> r = NotFound \/ r = Aborted ->
  execute sample_data = Ok (ReturnNone, []).
Proof.
  intros H [-> | ->]; unfold execute; rewrite H; reflexivity.
Qed.

Lemma execute_with_width (sample_data : bytes) (W : nat) :
  data_repeats sample_data = Ok (Found W) ->
  execute sample_data =
  if (4 * length sample_data <? 5 * W) || (length sample_data - W <? MIN_BYTES_REPEATED)
  then Ok (ReturnDict [], [])
  else if W <=? MAX_STRING_FEATURE_SIZE
  then Ok (ReturnNone,
           [add_many_feature_values
              (base_features sample_data W
               ++ [("rep_byte_data"%string, VStr (preview (slice_to sample_data W)))])])
  else Ok (ReturnNone,
           [add_child_with_data [("label", VStr "deduplicated")]%string
                                (slice_to sample_data W);
            add_many_feature_values (base_features sample_data W)]).
Proof.
  intros H. pose proof (data_repeats_found_sound _ _ _ H) as [HW _].
  unfold execute. rewrite H. simpl bind.
  unfold truthy. destruct (Nat.eqb_spec W 0) as [Hz | _]; [lia | ]. simpl negb.
  unfold py_true_div. destruct (Nat.eqb_spec W 0) as [Hz | _]; [lia | ]. simpl bind.
  rewrite ratio_below_minimum by lia.
  destruct ((4 * length sample_data <? 5 * W)
            || (length sample_data - W <? MIN_BYTES_REPEATED)); [reflexivity | ].
  assert (Hlen : length (slice_to sample_data W) = W).
  { unfold slice_to. rewrite length_firstn. lia. }
  rewrite Hlen. destruct (W <=? MAX_STRING_FEATURE_SIZE); reflexivity.
Qed.

(** ** What the plugin reports *)

(** [execute] returns for every sample, and it reports (makes any call at
    all) exactly when [data_repeats] found a width [W] that meets both
    thresholds: at least [MIN_BYTES_REPEATED] excess bytes and a ratio
    [len / W] of at least 1.25. *)
Theorem execute_reports_iff_both_thresholds (sample_data : bytes) :
  exists ret calls,
    execute sample_data = Ok (ret, calls) /\
    (calls <> [] <->
     exists W, data_repeats sample_data = Ok (Found W) /\
               MIN_BYTES_REPEATED <= length sample_data - W /\
               5 * W <= 4 * length sample_data).
Proof.
  destruct (data_repeats_returns MAXIMUM_WIDTH_ATTEMPTS sample_data) as [[W | | ] H];
    fold (data_repeats sample_data) in H.
  - rewrite (execute_with_width sample_data W H).
    destruct (Nat.ltb_spec (4 * length sample_data) (5 * W)) as [Hratio | Hratio];
      [ | destruct (Nat.ltb_spec (length sample_data - W) MIN_BYTES_REPEATED)
            as [Hexcess | Hexcess] ]; simpl orb.
    + exists (ReturnDict []), []. split; [reflexivity | ]. split; [congruence | ].
      intros [W' [HW' [_ Hr]]]. rewrite H in HW'. injection HW' as <-. lia.
    + exists (ReturnDict []), []. split; [reflexivity | ]. split; [congruence | ].
      intros [W' [HW' [He _]]]. rewrite H in HW'. injection HW' as <-. lia.
    + destruct (W <=? MAX_STRING_FEATURE_SIZE); eexists; eexists;
        (split; [reflexivity | ]); (split; [ | discriminate]);
        intros _; exists W; repeat split; assumption.
  - exists ReturnNone, []. split.
    + apply (execute_without_width sample_data NotFound H). left. reflexivity.
    + split; [congruence | ]. intros [W [HW _]]. rewrite H in HW. discriminate.
  - exists ReturnNone, []. split.
    + apply (execute_without_width sample_data Aborted H). right. reflexivity.
    + split; [congruence | ]. intros [W [HW _]]. rewrite H in HW. discriminate.
Qed.

(** What a report reads like, derived from [execute] by cases. *)
Lemma execute_report_inv (sample_data : bytes) (ret : returned) (calls : list call)
      (features : dict) :
  execute sample_data = Ok (ret, calls) ->
  In (add_many_feature_values features) calls ->
  exists W,
    data_repeats sample_data = Ok (Found W) /\
    1 <= W < length sample_data /\
    MIN_BYTES_REPEATED <= length sample_data - W /\
    5 * W <= 4 * length sample_data /\
    ((W <= MAX_STRING_FEATURE_SIZE /\
      features = base_features sample_data W
                 ++ [("rep_byte_data"%string, VStr (preview (slice_to sample_data W)))] /\
      calls = [add_many_feature_values features]) \/
     (MAX_STRING_FEATURE_SIZE < W /\
      features = base_features sample_data W /\
      calls = [add_child_with_data [("label", VStr "deduplicated")]%string
                                   (slice_to sample_data W);
               add_many_feature_values features])).
Proof.
  intros He Hin.
  destruct (data_repeats_returns MAXIMUM_WIDTH_ATTEMPTS sample_data) as [[W | | ] H];
    fold (data_repeats sample_data) in H.
  - pose proof (data_repeats_found_sound _ _ _ H) as [HW _].
    rewrite (execute_with_width sample_data W H) in He.
    destruct (Nat.ltb_spec (4 * length sample_data) (5 * W)) as [Hratio | Hratio];
      [ | destruct (Nat.ltb_spec (length sample_data - W) MIN_BYTES_REPEATED)
            as [Hexcess | Hexcess] ]; simpl orb in He.
    + injection He as <- <-. contradiction.
    + injection He as <- <-. contradiction.
    + exists W. repeat split; try assumption; try lia.
      destruct (Nat.leb_spec W MAX_STRING_FEATURE_SIZE) as [Hs | Hs];
        injection He as <- <-; simpl in Hin.
      * left. destruct Hin as [E | []]. injection E as <-.
        split; [exact Hs | split; reflexivity].
      * right. destruct Hin as [E | [E | []]]; [discriminate | ].
        injection E as <-. split; [exact Hs | split; reflexivity].
  - rewrite (execute_without_width sample_data NotFound H) in He by (left; reflexivity).
    injection He as <- <-. contradiction.
  - rewrite (execute_without_width sample_data Aborted H) in He by (right; reflexivity).
    injection He as <- <-. contradiction.
Qed.

(** Whenever [execute] reports features, the two size features add up to the
    length of the sample: [rep_byte_data_size] is the width [W] found by
    [data_repeats], [rep_byte_excess_size] is [len - W], at least
    [MIN_BYTES_REPEATED] and at least a quarter of [W]; the tag is
    [repeated_bytes]. *)
Theorem reported_features_describe_the_sample
        (sample_data : bytes) (ret : returned) (calls : list call) (features : dict) :
  execute sample_data = Ok (ret, calls) ->
  In (add_many_feature_values features) calls ->
  exists W excess,
    data_repeats sample_data = Ok (Found W) /\
    dict_get features "rep_byte_data_size"%string = Some (VInt W) /\
    dict_get features "rep_byte_excess_size"%string = Some (VInt excess) /\
    dict_get features "tag"%string = Some (VStr "repeated_bytes"%string) /\
    W + excess = length sample_data /\
    1 <= W /\ MIN_BYTES_REPEATED <= excess /\ W <= 4 * excess.
Proof.
  intros He Hin.
  destruct (execute_report_inv sample_data ret calls features He Hin)
    as [W [H [HW [Hexcess [Hratio Hcases]]]]].
  exists W, (length sample_data - W).
  assert (Hget : dict_get features "rep_byte_data_size"%string = Some (VInt W) /\
                 dict_get features "rep_byte_excess_size"%string
                 = Some (VInt (length sample_data - W)) /\
                 dict_get features "tag"%string = Some (VStr "repeated_bytes"%string)).
  { destruct Hcases as [[_ [-> _]] | [_ [-> _]]]; repeat split; reflexivity. }
  destruct Hget as [Hsize [Hex Htag]].
  repeat split; try assumption; lia.
Qed.

Lemma reported_features_describe_the_sample_witness :
  exists W excess,
    data_repeats (repeat x41 119) = Ok (Found W) /\
    dict_get (base_features (repeat x41 119) 1 ++ [("rep_byte_data", VStr "A")]%string)
             "rep_byte_data_size"%string = Some (VInt W) /\
    dict_get (base_features (repeat x41 119) 1 ++ [("rep_byte_data", VStr "A")]%string)
             "rep_byte_excess_size"%string = Some (VInt excess) /\
    dict_get (base_features (repeat x41 119) 1 ++ [("rep_byte_data", VStr "A")]%string)
             "tag"%string = Some (VStr "repeated_bytes"%string) /\
    W + excess = length (repeat x41 119) /\
    1 <= W /\ MIN_BYTES_REPEATED <= excess /\ W <= 4 * excess.
Proof.
  apply (reported_features_describe_the_sample
           (repeat x41 119) ReturnNone
           [add_many_feature_values
              (base_features (repeat x41 119) 1 ++ [("rep_byte_data", VStr "A")]%string)]).
  - vm_compute. reflexivity.
  - left. reflexivity.
Defined.

(** Whenever [execute] reports features, it hands on the first [W] bytes of
    the sample, and repeating those bytes gives the sample back.  For
    [W <= MAX_STRING_FEATURE_SIZE] they travel as the string feature
    [rep_byte_data], which reads back to exactly those bytes, and no child
    is added; for larger [W] the feature is absent and one child labelled
    [deduplicated] with those bytes is added before the features. *)
Theorem report_carries_the_repeated_block
        (sample_data : bytes) (ret : returned) (calls : list call) (features : dict) :
  execute sample_data = Ok (ret, calls) ->
  In (add_many_feature_values features) calls ->
  exists W,
    data_repeats sample_data = Ok (Found W) /\
    (forall k, length sample_data <= k * W ->
               slice_to (concat (repeat (slice_to sample_data W) k)) (length sample_data)
               = sample_data) /\
    ((W <= MAX_STRING_FEATURE_SIZE /\
      calls = [add_many_feature_values features] /\
      exists text,
        dict_get features "rep_byte_data"%string = Some (VStr text) /\
        unescape (String.list_byte_of_string text) = slice_to sample_data W) \/
     (MAX_STRING_FEATURE_SIZE < W /\
      dict_get features "rep_byte_data"%string = None /\
      calls = [add_child_with_data [("label", VStr "deduplicated")]%string
                                   (slice_to sample_data W);
               add_many_feature_values features])).
Proof.
  intros He Hin.
  destruct (execute_report_inv sample_data ret calls features He Hin)
    as [W [H [HW [_ [_ Hcases]]]]].
  exists W. split; [exact H | ]. split.
  - intros k Hk. pose proof (data_repeats_found_sound _ _ _ H) as [_ Hp].
    apply periodic_reconstructs; [lia | exact Hp | exact Hk].
  - destruct Hcases as [[Hs [Ef Ec]] | [Hs [Ef Ec]]]; [left | right].
    + split; [exact Hs | ]. split; [exact Ec | ].
      exists (preview (slice_to sample_data W)). split.
      * rewrite Ef. reflexivity.
      * apply preview_spec.
    + split; [exact Hs | ]. split; [rewrite Ef; reflexivity | exact Ec].
Qed.

Lemma report_carries_the_repeated_block_witness :
  exists W,
    data_repeats (repeat x41 119) = Ok (Found W) /\
    (forall k, length (repeat x41 119) <= k * W ->
               slice_to (concat (repeat (slice_to (repeat x41 119) W) k))
                        (length (repeat x41 119))
               = repeat x41 119) /\
    ((W <= MAX_STRING_FEATURE_SIZE /\
      [add_many_feature_values
         (base_features (repeat x41 119) 1 ++ [("rep_byte_data", VStr "A")]%string)]
      = [add_many_feature_values
           (base_features (repeat x41 119) 1 ++ [("rep_byte_data", VStr "A")]%string)] /\
      exists text,
        dict_get (base_features (repeat x41 119) 1 ++ [("rep_byte_data", VStr "A")]%string)
                 "rep_byte_data"%string = Some (VStr text) /\
        unescape (String.list_byte_of_string text) = slice_to (repeat x41 119) W) \/
     (MAX_STRING_FEATURE_SIZE < W /\
      dict_get (base_features (repeat x41 119) 1 ++ [("rep_byte_data", VStr "A")]%string)
               "rep_byte_data"%string = None /\
      [add_many_feature_values
         (base_features (repeat x41 119) 1 ++ [("rep_byte_data", VStr "A")]%string)]
      = [add_child_with_data [("label", VStr "deduplicated")]%string
                             (slice_to (repeat x41 119) W);
         add_many_feature_values
           (base_features (repeat x41 119) 1 ++ [("rep_byte_data", VStr "A")]%string)])).
Proof.
  apply (report_carries_the_repeated_block
           (repeat x41 119) ReturnNone
           [add_many_feature_values
              (base_features (repeat x41 119) 1 ++ [("rep_byte_data", VStr "A")]%string)]).
  - vm_compute. reflexivity.
  - left. reflexivity.
Defined.

(** A sample of at most [MIN_BYTES_REPEATED] bytes is never reported: it
    cannot have [MIN_BYTES_REPEATED] excess bytes. *)
Theorem execute_silent_on_short_samples (sample_data : bytes) :
  length sample_data <= MIN_BYTES_REPEATED ->
  exists ret, execute sample_data = Ok (ret, []).
Proof.
  intros Hshort.
  destruct (data_repeats_returns MAXIMUM_WIDTH_ATTEMPTS sample_data) as [[W | | ] H];
    fold (data_repeats sample_data) in H.
  - pose proof (data_repeats_found_sound _ _ _ H) as [HW _].
    rewrite (execute_with_width sample_data W H).
    destruct (Nat.ltb_spec (length sample_data - W) MIN_BYTES_REPEATED); [ | lia].
    rewrite orb_true_r. exists (ReturnDict []). reflexivity.
  - exists ReturnNone. apply (execute_without_width sample_data NotFound H).
    left. reflexivity.
  - exists ReturnNone. apply (execute_without_width sample_data Aborted H).
    right. reflexivity.
Qed.

Lemma execute_silent_on_short_samples_witness :
  length (repeat x41 64) <= MIN_BYTES_REPEATED /\
  exists ret, execute (repeat x41 64) = Ok (ret, []).
Proof.
  assert (H : length (repeat x41 64) <= MIN_BYTES_REPEATED) by (vm_compute; lia).
  split; [exact H | ].
  exact (execute_silent_on_short_samples (repeat x41 64) H).
Defined.
